(** * Caribou: Newton-Raphson solver, rectangular hexahedron and grid access

    A shallow embedding of three pieces of the Caribou finite-element
    toolkit:

    - [NewtonRaphsonSolver::solve] (SofaCaribou/Ode/NewtonRaphsonSolver.cpp),
      the nonlinear solve loop with its convergence and divergence tests;
    - [RectangularHexahedron::T] and [RectangularHexahedron::Tinv]
      (Caribou/Geometry/RectangularHexahedron.h);
    - the two overloads of [Grid::get] (Caribou/Topology/Engine/Grid/Grid.h).

    Doubles are IEEE-754 binary64 numbers (Rocq's primitive floats), so that
    NaN and rounding behave as they do in the C++ code.  The [unsigned]
    counters are integers with their 32-bit wrap-around written out. *)

From Stdlib Require Import Floats ZArith List String Bool Lia Reals Lra.
Import ListNotations.

Set Implicit Arguments.

(* ================================================================== *)
(** * Scalars: FLOATING_POINT_TYPE and its exact counterpart           *)
(* ================================================================== *)

(** The arithmetic the geometry code uses on [FLOATING_POINT_TYPE].  The
    program runs it on doubles ([float_scalar]); [real_scalar] is the same
    interface over the real numbers, where no operation rounds. *)
Class Scalar (F : Type) : Type := {
  s_zero : F;
  s_one : F;
  s_two : F;
  s_add : F -> F -> F;
  s_sub : F -> F -> F;
  s_mul : F -> F -> F;
  s_div : F -> F -> F
}.

#[export] Instance float_scalar : Scalar float := {
  s_zero := 0%float;
  s_one := 1%float;
  s_two := 2%float;
  s_add := PrimFloat.add;
  s_sub := PrimFloat.sub;
  s_mul := PrimFloat.mul;
  s_div := PrimFloat.div
}.

#[export] Instance real_scalar : Scalar R := {
  s_zero := 0%R;
  s_one := 1%R;
  s_two := 2%R;
  s_add := Rplus;
  s_sub := Rminus;
  s_mul := Rmult;
  s_div := Rdiv
}.

(* ================================================================== *)
(** * RectangularHexahedron                                            *)
(* ================================================================== *)

Module RectangularHexahedron.
Section Geometry.
Context {F : Type} {SF : Scalar F}.

(** [Eigen::Matrix<FLOATING_POINT_TYPE, 3, 1>] *)
Record Vector3 : Type := mkVector3 { vx : F; vy : F; vz : F }.

(** [Eigen::Matrix<FLOATING_POINT_TYPE, 3, 3>], given by its rows. *)
Record Mat33 : Type := mkMat33 { row0 : Vector3; row1 : Vector3; row2 : Vector3 }.

(** The members [p_center], [p_H] and [p_R]. *)
Record Hexahedron : Type := mkHexahedron {
  p_center : Vector3;
  p_H : Vector3;
  p_R : Mat33
}.

Definition Identity : Mat33 :=
  mkMat33 (mkVector3 s_one s_zero s_zero)
          (mkVector3 s_zero s_one s_zero)
          (mkVector3 s_zero s_zero s_one).

(** [a + b] and [a - b] on vectors. *)
Definition vec_add (a b : Vector3) : Vector3 :=
  mkVector3 (s_add (vx a) (vx b)) (s_add (vy a) (vy b)) (s_add (vz a) (vz b)).

Definition vec_sub (a b : Vector3) : Vector3 :=
  mkVector3 (s_sub (vx a) (vx b)) (s_sub (vy a) (vy b)) (s_sub (vz a) (vz b)).

(** [a.array() * b.array()] and [a.array() / b.array()]. *)
Definition cwise_mul (a b : Vector3) : Vector3 :=
  mkVector3 (s_mul (vx a) (vx b)) (s_mul (vy a) (vy b)) (s_mul (vz a) (vz b)).

Definition cwise_div (a b : Vector3) : Vector3 :=
  mkVector3 (s_div (vx a) (vx b)) (s_div (vy a) (vy b)) (s_div (vz a) (vz b)).

(** [a / s] for a scalar [s]. *)
Definition vec_div_scalar (a : Vector3) (s : F) : Vector3 :=
  mkVector3 (s_div (vx a) s) (s_div (vy a) s) (s_div (vz a) s).

(** Inner product of a row with a column, summed from the left. *)
Definition row_dot (r x : Vector3) : F :=
  s_add (s_add (s_mul (vx r) (vx x)) (s_mul (vy r) (vy x))) (s_mul (vz r) (vz x)).

(** [M * x] *)
Definition mat_vec (M : Mat33) (x : Vector3) : Vector3 :=
  mkVector3 (row_dot (row0 M) x) (row_dot (row1 M) x) (row_dot (row2 M) x).

(** [M.transpose()] *)
Definition transpose (M : Mat33) : Mat33 :=
  mkMat33 (mkVector3 (vx (row0 M)) (vx (row1 M)) (vx (row2 M)))
          (mkVector3 (vy (row0 M)) (vy (row1 M)) (vy (row2 M)))
          (mkVector3 (vz (row0 M)) (vz (row1 M)) (vz (row2 M))).

(** [A * B] *)
Definition mat_mul (A B : Mat33) : Mat33 :=
  let Bt := transpose B in
  mkMat33
    (mkVector3 (row_dot (row0 A) (row0 Bt)) (row_dot (row0 A) (row1 Bt)) (row_dot (row0 A) (row2 Bt)))
    (mkVector3 (row_dot (row1 A) (row0 Bt)) (row_dot (row1 A) (row1 Bt)) (row_dot (row1 A) (row2 Bt)))
    (mkVector3 (row_dot (row2 A) (row0 Bt)) (row_dot (row2 A) (row1 Bt)) (row_dot (row2 A) (row2 Bt))).

(** [T]: local position {u,v,w} to world position {x,y,z},
    [p_center + ((p_R * coordinates).array()*(p_H/2.).array()).matrix()]. *)
Definition T (h : Hexahedron) (coordinates : Vector3) : Vector3 :=
  vec_add (p_center h)
          (cwise_mul (mat_vec (p_R h) coordinates) (vec_div_scalar (p_H h) s_two)).

(** [Tinv]: world position to local position,
    [p_R.transpose() * ((coordinates - p_center).array() / (p_H/2.).array()).matrix()]. *)
Definition Tinv (h : Hexahedron) (coordinates : Vector3) : Vector3 :=
  mat_vec (transpose (p_R h))
          (cwise_div (vec_sub coordinates (p_center h)) (vec_div_scalar (p_H h) s_two)).

(** The rotation is orthogonal: [p_R.transpose() * p_R] is the identity. *)
Definition orthogonal (h : Hexahedron) : Prop :=
  mat_mul (transpose (p_R h)) (p_R h) = Identity.

(** None of hx, hy, hz is zero. *)
Definition nonzero_dimensions (h : Hexahedron) : Prop :=
  vx (p_H h) <> s_zero /\ vy (p_H h) <> s_zero /\ vz (p_H h) <> s_zero.

End Geometry.

Arguments Vector3 F : clear implicits.
Arguments Mat33 F : clear implicits.
Arguments Hexahedron F : clear implicits.

(** In double precision: the hexahedron of size 2x2x2, not rotated, centred
    at (1, 0, 0), and the local point (0.1, 0, 0), 0.1 being the double
    closest to one tenth. *)
Definition shifted_hexahedron : Hexahedron float :=
  mkHexahedron (mkVector3 1%float 0%float 0%float)
               (mkVector3 2%float 2%float 2%float)
               Identity.

Definition tenth_x : Vector3 float :=
  mkVector3 0x1.999999999999ap-4%float 0%float 0%float.

(** The default hexahedron [RectangularHexahedron()] over the reals. *)
Definition default_hexahedron : Hexahedron R :=
  mkHexahedron (mkVector3 0%R 0%R 0%R) (mkVector3 2%R 2%R 2%R) Identity.

End RectangularHexahedron.

(* ================================================================== *)
(** * Grid                                                             *)
(* ================================================================== *)

Module Grid.

(** What a call can end in: a value, the [std::out_of_range] the
    documentation announces, or an access past the end of [m_cells]
    ([std::vector::operator[]] does not check its index). *)
Inductive Outcome (A : Type) : Type :=
| Returned (a : A)
| OutOfRange
| PastTheEnd.
Arguments OutOfRange {A}.
Arguments PastTheEnd {A}.

Section Grid.
Variable CellType : Type.

(** [VecInt]: grid coordinates (i, j, k). *)
Definition VecInt : Type := (Z * Z * Z)%type.

Record Grid : Type := mkGrid {
  m_number_of_subdivisions : VecInt;
  m_cells : list CellType
}.

(** [cell_index] is virtual and defined outside the header: it is a
    parameter here.  [None] stands for the [std::out_of_range] it throws
    for coordinates outside of the subdivisions. *)
Variable cell_index : Grid -> VecInt -> option nat.

(** The two member functions named [get]. *)
Inductive Overload : Type := NonConstGet | ConstGet.

(** Overload resolution of a call [get(grid_coordinates)] made on [*this]:
    inside a const member function [this] points to a const Grid, and
    only the const overload is viable. *)
Definition resolve_get (this_is_const : bool) : Overload :=
  if this_is_const then ConstGet else NonConstGet.

(** [m_cells[cell_index(grid_coordinates)]] *)
Definition cell_at (g : Grid) (grid_coordinates : VecInt) : Outcome CellType :=
  match cell_index g grid_coordinates with
  | None => OutOfRange
  | Some i =>
      match nth_error (m_cells g) i with
      | Some c => Returned c
      | None => PastTheEnd
      end
  end.

(** A call of [get].  The non-const body returns
    [m_cells[cell_index(grid_coordinates)]]; the const body is
    [return get(grid_coordinates);], a call made from a const member
    function.  [fuel] bounds the depth of calls; [None] means that the
    call has not returned within that depth. *)
Fixpoint get (fuel : nat) (o : Overload) (g : Grid) (grid_coordinates : VecInt)
  : option (Outcome CellType) :=
  match fuel with
  | O => None
  | S fuel' =>
      match o with
      | NonConstGet => Some (cell_at g grid_coordinates)
      | ConstGet => get fuel' (resolve_get true) g grid_coordinates
      end
  end.

End Grid.
End Grid.

(* ================================================================== *)
(** * NewtonRaphsonSolver                                              *)
(* ================================================================== *)

Module NewtonRaphson.

Open Scope Z_scope.

(** [unsigned]: the type of [d_newton_iterations] and of the counter
    [n_it]; arithmetic wraps modulo 2^32. *)
Definition unsigned (z : Z) : Z := z mod 2 ^ 32.

(** Identifiers of the multi-vectors of the mechanical objects. *)
Inductive VecId : Type :=
| position
| velocity
| force
| dforce
| dx
| total_displacement
| user_vector (n : nat).

(** [sofa::core::MechanicalParams] as [solve] fills it. *)
Record MechanicalParams : Type := mkMechanicalParams {
  mp_x : VecId;
  mp_v : VecId;
  mp_f : VecId;
  mp_df : VecId;
  mp_dx : VecId;
  mp_dt : float;
  mp_implicit : bool
}.

Definition setImplicit (b : bool) (mp : MechanicalParams) : MechanicalParams :=
  mkMechanicalParams (mp_x mp) (mp_v mp) (mp_f mp) (mp_df mp) (mp_dx mp) (mp_dt mp) b.

(** What the solver writes: [msg_error] lines and, under [printLog], the
    pieces streamed into [info].  The banner's time step and path names,
    which come from the scene graph, are left out of [info_start]. *)
Inductive Message : Type :=
| msg_error (text : string)
| info_start (max_iterations : Z) (residual_tolerance correction_tolerance : float)
| info_equilibrium
| info_iteration (n_it : Z) (residual_ratio correction_ratio : float) (time_ms : Z)
| info_diverged (residual_is_nan correction_is_nan total_is_zero : bool)
| info_converged_correction (ratio threshold : float)
| info_converged_residual (ratio threshold : float)
| info_max_iterations (newton_iterations : Z).

(** The two lines written when no compatible linear solver is set;
    [l_linear_solver.getName()] is "linear_solver". *)
Definition no_linear_solver_errors : list Message :=
  [ msg_error "The system will NOT be solved.";
    msg_error "No compatible linear solver have been set. Use the 'linear_solver' attribute to specify the path towards a linear solver." ].

(** The interface [SofaCaribou::solver::LinearSolver]. *)
Record LinearSolver (Vec Mat : Type) : Type := mkLinearSolver {
  create_new_matrix : Z -> Z -> Mat;
  create_new_vector : Z -> Vec;
  (** [solve(A, F, X)]: success flag and the content of [X] afterwards. *)
  linear_solve : Mat -> Vec -> Vec -> bool * Vec
}.

(** What the link [l_linear_solver] can point to: a solver implementing the
    Caribou interface, or some other linear solver of the scene. *)
Inductive SceneObject (Vec Mat : Type) : Type :=
| CaribouLinearSolver (ls : LinearSolver Vec Mat)
| SofaLinearSolver (name : string).
Arguments CaribouLinearSolver {Vec Mat} ls.
Arguments SofaLinearSolver {Vec Mat} name.

(** [dynamic_cast<SofaCaribou::solver::LinearSolver *>(l_linear_solver.get())] *)
Definition dynamic_cast_LinearSolver {Vec Mat : Type}
  (link : option (SceneObject Vec Mat)) : option (LinearSolver Vec Mat) :=
  match link with
  | Some (CaribouLinearSolver ls) => Some ls
  | Some (SofaLinearSolver _) => None
  | None => None
  end.

(** The collaborators of [solve] that live outside of the file: the vector
    operations of the scene ([vop]), the matrix dimension given by [mop] and
    the accessor, the Caribou vector algebra, the clock, the constants of
    Caribou/config.h, and the three virtual members that the concrete ODE
    solvers implement. *)
Class Scene (World Vec Mat : Type) : Type := {
  v_clear : VecId -> World -> World;
  v_realloc : VecId -> World -> World;
  v_peq : VecId -> VecId -> World -> World;
  v_dot : VecId -> VecId -> World -> float;
  getGlobalDimension : MechanicalParams -> World -> Z;
  vec_clear : Vec -> Vec;
  mat_clear : Mat -> Mat;
  dot : Vec -> Vec -> float;
  (** the reading of [steady_clock::now()] at its k-th call, in ns *)
  steady_clock_now : nat -> Z;
  EPSILON : float;
  (** width of [UNSIGNED_INTEGER_TYPE] *)
  UNSIGNED_INTEGER_BITS : Z;
  assemble_rhs_vector : MechanicalParams -> VecId -> World -> Vec -> World * Vec;
  assemble_system_matrix : MechanicalParams -> World -> Mat -> World * Mat;
  propagate_position_increment :
    MechanicalParams -> Vec -> VecId -> VecId -> VecId -> World -> World
}.

Section Solver.
Context {World Vec Mat : Type} {SC : Scene World Vec Mat}.

(** The members of a [NewtonRaphsonSolver] object.  The three buffers are
    [std::unique_ptr]s, null until the first solve. *)
Record Solver : Type := mkSolver {
  d_newton_iterations : Z;
  d_correction_tolerance_threshold : float;
  d_residual_tolerance_threshold : float;
  f_printLog : bool;
  l_linear_solver : option (SceneObject Vec Mat);
  d_converged : bool;
  p_U_id : VecId;
  p_squared_residuals : list float;
  p_times : list Z;
  p_squared_initial_residual : float;
  p_A : option Mat;
  p_DX : option Vec;
  p_F : option Vec
}.

(** What lives outside of the solver object: the function-local static
    flag of [solve], the scene, the messages written so far, the number
    of clock readings taken and the values given to the AdvancedTimer
    through [valSet].  The steps and scoped timers of the AdvancedTimer
    only feed the profiler and are not modelled. *)
Record Process : Type := mkProcess {
  error_message_already_printed : bool;
  world : World;
  messages : list Message;
  clock_reads : nat;
  timer_values : list (string * Z)
}.

Definition has_valid_linear_solver (s : Solver) : bool :=
  match l_linear_solver s with
  | None => false
  | Some _ =>
      match dynamic_cast_LinearSolver (l_linear_solver s) with
      | Some _ => true
      | None => false
      end
  end.

(** The options read at the top of [solve] and the objects that stay the
    same during the iterations. *)
Record Options : Type := mkOptions {
  linear_solver : LinearSolver Vec Mat;
  mechanical_parameters : MechanicalParams;
  x_id : VecId;
  v_id : VecId;
  U_id : VecId;
  correction_tolerance_threshold : float;
  residual_tolerance_threshold : float;
  newton_iterations : Z;
  print_log : bool
}.

Definition squared_residual_threshold (o : Options) : float :=
  (residual_tolerance_threshold o * residual_tolerance_threshold o)%float.

Definition squared_correction_threshold (o : Options) : float :=
  (correction_tolerance_threshold o * correction_tolerance_threshold o)%float.

(** The variables that change from one iteration to the next. *)
Record LoopState : Type := mkLoopState {
  st_world : World;
  st_messages : list Message;
  st_clock_reads : nat;
  st_A : Mat;
  st_DX : Vec;
  st_F : Vec;
  st_squared_residuals : list float;
  st_times : list Z;
  n_it : Z;
  R_squared_norm : float;
  converged : bool;
  diverged : bool
}.

(** [info << ...] when [print_log] is set. *)
Definition log (o : Options) (msgs : list Message) (new : list Message) : list Message :=
  if print_log o then msgs ++ new else msgs.

(** [static_cast<UNSIGNED_INTEGER_TYPE>(iteration_time)] *)
Definition to_UNSIGNED_INTEGER_TYPE (z : Z) : Z := z mod 2 ^ UNSIGNED_INTEGER_BITS.

(** What parts 1 to 7 of the loop body hand over to the divergence and
    convergence tests: the state with the iteration recorded and counted,
    and the two squared norms that stay local to the body. *)
Record Update : Type := mkUpdate {
  up_state : LoopState;
  dx_squared_norm : float;
  du_squared_norm : float
}.

(** The loop body up to the line [n_it++] and the step information.
    [inl] is the exit through [if (not solved) { diverged = true; break; }]. *)
Definition newton_update (o : Options) (st : LoopState) : LoopState + Update :=
  let mp := mechanical_parameters o in
  (* t = steady_clock::now() *)
  let t := steady_clock_now (st_clock_reads st) in
  (* Part 1. Assemble the system matrix *)
  let '(w1, A1) := assemble_system_matrix mp (st_world st) (mat_clear (st_A st)) in
  (* Part 2. Solve the position increment *)
  let '(solved, DX1) := linear_solve (linear_solver o) A1 (st_F st) (st_DX st) in
  if negb solved then
    inl (mkLoopState w1 (st_messages st) (S (st_clock_reads st)) A1 DX1 (st_F st)
                     (st_squared_residuals st) (st_times st)
                     (n_it st) (R_squared_norm st) (converged st) true)
  else
    (* Part 3. Propagating the displacement increment and update geometry *)
    let w2 := propagate_position_increment mp DX1 (x_id o) (v_id o) dx w1 in
    (* Parts 4 and 5, only when doing more than one Newton iteration *)
    let '(w3, F1, R) :=
      if 1 <? newton_iterations o then
        let '(w, F') := assemble_rhs_vector mp force w2 (vec_clear (st_F st)) in
        (w, F', dot F' F')
      else (w2, st_F st, R_squared_norm st) in
    (* Part 6. Compute the updated displacement residual *)
    let w4 := v_peq (U_id o) dx w3 in
    let dx2 := v_dot dx dx w4 in
    let du2 := v_dot (U_id o) (U_id o) w4 in
    (* Part 7. Stop timers and print step information *)
    let iteration_time := steady_clock_now (S (st_clock_reads st)) - t in
    let times := st_times st ++ [to_UNSIGNED_INTEGER_TYPE iteration_time] in
    let residuals := st_squared_residuals st ++ [R] in
    (* We completed one iteration, increment the counter *)
    let n := unsigned (n_it st + 1) in
    let msgs :=
      log o (st_messages st)
          [info_iteration n (PrimFloat.sqrt (R / hd R residuals)) (PrimFloat.sqrt (dx2 / du2))
                          (Z.quot (Z.quot iteration_time 1000) 1000)] in
    inr (mkUpdate
           (mkLoopState w4 msgs (S (S (st_clock_reads st))) A1 DX1 F1 residuals times
                        n R (converged st) (diverged st))
           dx2 du2).

(** The state a test leaves when it sets the flags and writes to [info]. *)
Definition with_flags (st : LoopState) (new : list Message) (c d : bool) : LoopState :=
  mkLoopState (st_world st) (st_messages st ++ new) (st_clock_reads st)
              (st_A st) (st_DX st) (st_F st) (st_squared_residuals st) (st_times st)
              (n_it st) (R_squared_norm st) c d.

(** [vop.v_clear(dx_id)] at the end of a pass that goes on. *)
Definition clear_solution (st : LoopState) : LoopState :=
  mkLoopState (v_clear dx (st_world st)) (st_messages st) (st_clock_reads st)
              (st_A st) (st_DX st) (st_F st) (st_squared_residuals st) (st_times st)
              (n_it st) (R_squared_norm st) (converged st) (diverged st).

(** [std::isnan(R_squared_norm) or std::isnan(dx_squared_norm) or du_squared_norm < EPSILON] *)
Definition divergence_test (u : Update) : bool :=
  is_nan (R_squared_norm (up_state u)) || is_nan (dx_squared_norm u)
  || (du_squared_norm u <? EPSILON)%float.

(** [correction_tolerance_threshold > 0 and
     dx_squared_norm < squared_correction_threshold*du_squared_norm] *)
Definition correction_test (o : Options) (u : Update) : bool :=
  (0 <? correction_tolerance_threshold o)%float
  && (dx_squared_norm u <? squared_correction_threshold o * du_squared_norm u)%float.

(** [p_squared_residuals[0]]; the list is not empty where the code
    reads it. *)
Definition first_squared_residual (st : LoopState) : float :=
  hd (R_squared_norm st) (st_squared_residuals st).

(** [residual_tolerance_threshold > 0 and
     R_squared_norm < squared_residual_threshold*p_squared_residuals[0]] *)
Definition residual_test (o : Options) (u : Update) : bool :=
  (0 <? residual_tolerance_threshold o)%float
  && (R_squared_norm (up_state u)
        <? squared_residual_threshold o * first_squared_residual (up_state u))%float.

(** The rest of the loop body: the divergence test, then part 8.  The
    boolean is [true] when the body leaves the loop through [break]. *)
Definition newton_checks (o : Options) (u : Update) : LoopState * bool :=
  let st := up_state u in
  let R := R_squared_norm st in
  if divergence_test u then
    (with_flags st
       (if print_log o
        then [info_diverged (is_nan R) (is_nan (dx_squared_norm u))
                            (du_squared_norm u <? EPSILON)%float]
        else [])
       (converged st) true,
     true)
  else if correction_test o u then
    (with_flags st
       (if print_log o
        then [info_converged_correction
                (PrimFloat.sqrt (dx_squared_norm u / du_squared_norm u))
                (correction_tolerance_threshold o)]
        else [])
       true (diverged st),
     true)
  else if residual_test o u then
    (with_flags st
       (if print_log o
        then [info_converged_residual
                (PrimFloat.sqrt (R / first_squared_residual st))
                (residual_tolerance_threshold o)]
        else [])
       true (diverged st),
     true)
  else (clear_solution st, false).

(** What holds of the histories and of the counter at every point of the
    loop: one entry of each history per completed iteration, and no more
    iterations than configured. *)
Definition counted (o : Options) (st : LoopState) : Prop :=
  List.length (st_squared_residuals st) = List.length (st_times st)
  /\ Z.of_nat (List.length (st_squared_residuals st)) = n_it st
  /\ 0 <= n_it st <= newton_iterations o.

(** The three ways the loop can end. *)
Definition ended (o : Options) (st : LoopState) : Prop :=
  (converged st = true /\ diverged st = false)
  \/ (converged st = false /\ diverged st = true)
  \/ (converged st = false /\ diverged st = false /\ n_it st = newton_iterations o).

(** The first tangent assembly and linear solve of a pass. *)
Definition assembled (o : Options) (st : LoopState) : World * Mat :=
  assemble_system_matrix (mechanical_parameters o) (st_world st) (mat_clear (st_A st)).

Definition solved (o : Options) (st : LoopState) : bool * Vec :=
  linear_solve (linear_solver o) (snd (assembled o st)) (st_F st) (st_DX st).

(** The body of the [while] loop. *)
Definition newton_iteration (o : Options) (st : LoopState) : LoopState * bool :=
  match newton_update o st with
  | inl st' => (st', true)
  | inr u => newton_checks o u
  end.

(** [while (not converged and n_it < newton_iterations) { ... }].
    [fuel] bounds the number of passes; [None] means that the loop has
    not ended within that number. *)
Fixpoint newton_loop (fuel : nat) (o : Options) (st : LoopState) : option LoopState :=
  if negb (converged st) && (n_it st <? newton_iterations o) then
    match fuel with
    | O => None
    | S fuel' =>
        let '(st', broke) := newton_iteration o st in
        if broke then Some st' else newton_loop fuel' o st'
    end
  else Some st.

(** The values of the local variables when [solve] returns: the two
    flags, and [n_it] after [n_it--], the index of the last iteration
    completed. *)
Record Exit : Type := mkExit {
  exit_converged : bool;
  exit_diverged : bool;
  exit_n_it : Z
}.

(** The value given to the timer as [nb_iterations]: [n_it+1]. *)
Definition nb_iterations (e : Exit) : Z := unsigned (exit_n_it e + 1).

Definition b2z (b : bool) : Z := if b then 1 else 0.

(** The state at the top of the [while] loop: everything [solve] does
    between the check of the linear solver and the Newton iterations. *)
Definition solve_init (ls : LinearSolver Vec Mat) (s : Solver) (p : Process)
  (dt : float) (x v : VecId) : Options * LoopState :=
  (* Set the multi-vector identifier inside the mechanical parameters. *)
  let mechanical_parameters := mkMechanicalParams x v force dforce dx dt false in
  (* mop keeps its own copy of the parameters; setImplicit(true) acts on it *)
  let mop := setImplicit true mechanical_parameters in
  let o := mkOptions ls mechanical_parameters x v (p_U_id s)
                     (d_correction_tolerance_threshold s)
                     (d_residual_tolerance_threshold s)
                     (d_newton_iterations s) (f_printLog s) in
  (* Right hand side term, incremental and total displacement *)
  let w := v_clear force (world p) in
  let w := v_clear dx (v_realloc dx w) in
  let w := v_clear (p_U_id s) (v_realloc (p_U_id s) w) in
  let mop := setImplicit true mop in
  let msgs :=
    log o (messages p)
        [info_start (newton_iterations o) (residual_tolerance_threshold o)
                    (correction_tolerance_threshold o)] in
  (* Mechanical graph: the dimension of the system and its buffers *)
  let n := unsigned (getGlobalDimension mop w) in
  let A := mat_clear (create_new_matrix ls n n) in
  let DX := vec_clear (create_new_vector ls n) in
  let F := vec_clear (create_new_vector ls n) in
  (* First residual *)
  let '(w, F) := assemble_rhs_vector mechanical_parameters force w F in
  let R := dot F F in
  let already := (0 <? residual_tolerance_threshold o)%float
                 && (R <=? residual_tolerance_threshold o)%float in
  let msgs := if already then log o msgs [info_equilibrium] else msgs in
  (o, mkLoopState w msgs (clock_reads p) A DX F [] [] 0 R already false).

(** What [solve] does after the loop, from the state [st0] at the top of
    the loop and the state [st] the loop ended in: [n_it--], the report of
    the exhausted budget, [d_converged] and the timer values. *)
Definition solve_finish (s : Solver) (p : Process) (o : Options)
  (st0 st : LoopState) : Solver * Process * option Exit :=
  (* Reset to the actual index of the last iteration completed *)
  let n := unsigned (n_it st - 1) in
  let msgs :=
    if negb (converged st) && negb (diverged st)
       && (n =? unsigned (newton_iterations o - 1))
    then log o (st_messages st) [info_max_iterations (newton_iterations o)]
    else st_messages st in
  let e := mkExit (converged st) (diverged st) n in
  (mkSolver (d_newton_iterations s)
            (d_correction_tolerance_threshold s)
            (d_residual_tolerance_threshold s)
            (f_printLog s) (l_linear_solver s)
            (converged st) (p_U_id s)
            (st_squared_residuals st) (st_times st)
            (R_squared_norm st0)
            (Some (st_A st)) (Some (st_DX st)) (Some (st_F st)),
   mkProcess false (st_world st) msgs (st_clock_reads st)
             (timer_values p
                ++ [("has_converged"%string, b2z (converged st));
                    ("nb_iterations"%string, nb_iterations e)]),
   Some e).

(** [NewtonRaphsonSolver::solve], with [fuel] passes allowed to the loop.
    The result holds the solver object, the rest of the process and, when
    the system was solved, the local variables at the return. *)
Definition solve_with (fuel : nat) (s : Solver) (p : Process)
  (dt : float) (x v : VecId) : option (Solver * Process * option Exit) :=
  if negb (has_valid_linear_solver s) then
    if negb (error_message_already_printed p) then
      Some (s,
            mkProcess true (world p) (messages p ++ no_linear_solver_errors)
                      (clock_reads p) (timer_values p),
            None)
    else Some (s, p, None)
  else
    match dynamic_cast_LinearSolver (l_linear_solver s) with
    | None => None (* a null pointer would be used; excluded by the test above *)
    | Some ls =>
        let '(o, st0) := solve_init ls s p dt x v in
        match newton_loop fuel o st0 with
        | None => None
        | Some st => Some (solve_finish s p o st0 st)
        end
    end.

(** [solve]: the loop makes at most [newton_iterations] passes. *)
Definition solve (s : Solver) (p : Process) (dt : float) (x v : VecId)
  : option (Solver * Process * option Exit) :=
  solve_with (Z.to_nat (d_newton_iterations s)) s p dt x v.

(** The value held by the [unsigned] option is in the range of its type. *)
Definition well_formed (s : Solver) : Prop :=
  0 <= d_newton_iterations s < 2 ^ 32.

(** [calls] in a row on the same process, each on its own solver object:
    the solver objects after their calls, and the process at the end. *)
Fixpoint solve_all (calls : list (Solver * float * VecId * VecId)) (p : Process)
  : option (list Solver * Process) :=
  match calls with
  | [] => Some ([], p)
  | (s, dt, x, v) :: rest =>
      match solve s p dt x v with
      | Some (s', p', _) =>
          match solve_all rest p' with
          | Some (ss, q) => Some (s' :: ss, q)
          | None => None
          end
      | None => None
      end
  end.

End Solver.

Arguments Solver Vec Mat : clear implicits.
Arguments Process World : clear implicits.
Arguments Options Vec Mat : clear implicits.
Arguments LoopState World Vec Mat : clear implicits.
Arguments Update World Vec Mat : clear implicits.

End NewtonRaphson.

(* ================================================================== *)
(** * A scene with one degree of freedom                               *)
(* ================================================================== *)

(** One mechanical object with a single degree of freedom, a force field
    given by its residual [R(x)] and its tangent [K(x)], and linear solvers
    for the 1x1 system.  The theorems on [solve] are run on it. *)
Module Spring.
Import NewtonRaphson.

Open Scope float_scope.

(** The multi-vectors of the mechanical object. *)
Record Dof : Type := mkDof {
  q_position : float;
  q_velocity : float;
  q_force : float;
  q_dx : float;
  q_total : float
}.

Definition read (id : VecId) (w : Dof) : float :=
  match id with
  | position => q_position w
  | velocity => q_velocity w
  | force => q_force w
  | dx => q_dx w
  | total_displacement => q_total w
  | _ => 0
  end.

Definition write (id : VecId) (a : float) (w : Dof) : Dof :=
  match id with
  | position => mkDof a (q_velocity w) (q_force w) (q_dx w) (q_total w)
  | velocity => mkDof (q_position w) a (q_force w) (q_dx w) (q_total w)
  | force => mkDof (q_position w) (q_velocity w) a (q_dx w) (q_total w)
  | dx => mkDof (q_position w) (q_velocity w) (q_force w) a (q_total w)
  | total_displacement => mkDof (q_position w) (q_velocity w) (q_force w) (q_dx w) a
  | _ => w
  end.

(** The scene of a force field with residual [R] and tangent [K]; the
    clock advances by one microsecond per reading. *)
Definition scene (R K : float -> float) : Scene Dof float float := {|
  v_clear := fun id w => write id 0 w;
  v_realloc := fun _ w => w;
  v_peq := fun a b w => write a (read a w + read b w) w;
  v_dot := fun a b w => read a w * read b w;
  getGlobalDimension := fun _ _ => 1%Z;
  vec_clear := fun _ => 0;
  mat_clear := fun _ => 0;
  dot := fun a b => a * b;
  steady_clock_now := fun k => (1000 * Z.of_nat k)%Z;
  EPSILON := 0x1p-52;
  UNSIGNED_INTEGER_BITS := 64%Z;
  assemble_rhs_vector := fun _ id w F =>
    let f := R (q_position w) in (write id f w, F + f);
  assemble_system_matrix := fun _ w A => (w, A + K (q_position w));
  propagate_position_increment := fun _ DX x _ d w =>
    write d DX (write x (read x w + DX) w)
|}.

(** Solves [A * X = F]; fails on a zero matrix. *)
Definition division_solver : LinearSolver float float :=
  mkLinearSolver (fun _ _ => 0) (fun _ => 0)
                 (fun A F X => if (A =? 0) then (false, X) else (true, F / A)).

(** A linear solver whose [solve] always returns false. *)
Definition failing_solver : LinearSolver float float :=
  mkLinearSolver (fun _ _ => 0) (fun _ => 0) (fun _ _ X => (false, X)).

(** A linear spring of stiffness 1 under the load [load]. *)
Definition linear_spring (load : float) : Scene Dof float float :=
  scene (fun x => load - x) (fun _ => 1).

Definition rest : Dof := mkDof 0 0 0 0 0.

(** A process at its start: nothing printed, no timer value. *)
Definition fresh (w : Dof) : Process Dof := mkProcess false w [] 0 [].

(** A solver object as its constructor leaves it, with the given options
    and link. *)
Definition new_solver (iterations : Z) (correction residual : float) (printLog : bool)
  (link : option (SceneObject float float)) : Solver float float :=
  mkSolver iterations correction residual printLog link
           false total_displacement [] [] 0 None None None.

(** The default tolerance 1e-5, as the double closest to it. *)
Definition default_tolerance : float := 0x1.4f8b588e368f1p-17.

Definition division_link : option (SceneObject float float) :=
  Some (CaribouLinearSolver division_solver).

Definition failing_link : option (SceneObject float float) :=
  Some (CaribouLinearSolver failing_solver).

(** One iteration allowed, correction test disabled, residual tolerance 3. *)
Definition loose_solver : Solver float float :=
  new_solver 1 (-1) 3 false division_link.

(** Three iterations allowed, correction test disabled, default residual
    tolerance. *)
Definition residual_only_solver : Solver float float :=
  new_solver 3 (-1) default_tolerance false division_link.

(** Three iterations allowed, both tolerances at their default. *)
Definition default_solver : Solver float float :=
  new_solver 3 default_tolerance default_tolerance true division_link.

(** Three iterations allowed, correction tolerance 2, residual test
    disabled. *)
Definition lenient_solver : Solver float float :=
  new_solver 3 2 (-1) true division_link.

(** Solvers in single-iteration mode, residual test disabled. *)
Definition single_solver : Solver float float :=
  new_solver 1 default_tolerance (-1) true division_link.

Definition single_failing_solver : Solver float float :=
  new_solver 1 default_tolerance (-1) true failing_link.

(** Three iterations allowed, linked to the solver that always fails. *)
Definition stuck_solver : Solver float float :=
  new_solver 3 default_tolerance default_tolerance true failing_link.

(** Solvers without a compatible linear solver: no link, and a link to a
    linear solver that does not implement the Caribou interface. *)
Definition unlinked_solver : Solver float float :=
  new_solver 3 default_tolerance default_tolerance true None.

Definition mislinked_solver : Solver float float :=
  new_solver 1 default_tolerance default_tolerance false
             (Some (SofaLinearSolver "CGLinearSolver")).

(** The options and the state at the top of the loop of a first solve. *)
Definition entry (SC : Scene Dof float float) (ls : LinearSolver float float)
  (s : Solver float float) : Options float float * LoopState Dof float float :=
  @solve_init Dof float float SC ls s (fresh rest) 1 position velocity.

(** The update of the first pass of that solve. *)
Definition first_update (SC : Scene Dof float float) (ls : LinearSolver float float)
  (s : Solver float float) : option (Update Dof float float) :=
  match @newton_update Dof float float SC (fst (entry SC ls s)) (snd (entry SC ls s)) with
  | inr u => Some u
  | inl _ => None
  end.

(** A load of 2^-30: the first increment and the total displacement are
    2^-30, whose square is below EPSILON. *)
Definition tiny_load : float := 0x1p-30.

Definition tiny_update : Update Dof float float :=
  Eval vm_compute in
    match first_update (linear_spring tiny_load) division_solver lenient_solver with
    | Some u => u
    | None => mkUpdate (snd (entry (linear_spring tiny_load) division_solver lenient_solver)) 0 0
    end.

End Spring.

(* ================================================================== *)
(** * NewtonRaphsonSolver::init                                        *)
(* ================================================================== *)

Module SolverInit.
Import NewtonRaphson.

(** The message [init] writes, if any.  Errors and warnings are always
    written; the information message goes through [msg_info()], which
    writes only when the printLog option of the component is set. *)
Inductive InitMessage : Type :=
| error_no_linear_solver
| error_no_compatible_linear_solver (found : nat)
| info_linear_solver_found (path : string)
| warning_multiple_linear_solvers (path : string).

Section Init.
Context {Vec Mat : Type}.

(** [getPathName()] of the objects of the scene. *)
Variable getPathName : SceneObject Vec Mat -> string.

(** [l_linear_solver.set(solver)] *)
Definition set_linear_solver (s : Solver Vec Mat) (solver : SceneObject Vec Mat)
  : Solver Vec Mat :=
  mkSolver (d_newton_iterations s) (d_correction_tolerance_threshold s)
           (d_residual_tolerance_threshold s) (f_printLog s) (Some solver)
           (d_converged s) (p_U_id s) (p_squared_residuals s) (p_times s)
           (p_squared_initial_residual s) (p_A s) (p_DX s) (p_F s).

(** The loop that sorts the linear solvers of the node into
    [sofa_linear_solvers] and [caribou_linear_solvers], each by
    [push_back]. *)
Definition classify (solvers : list (SceneObject Vec Mat))
  : list (SceneObject Vec Mat) * list (SceneObject Vec Mat) :=
  fold_left
    (fun (lists : list (SceneObject Vec Mat) * list (SceneObject Vec Mat)) solver =>
       match dynamic_cast_LinearSolver (Some solver) with
       | Some _ => (fst lists, snd lists ++ [solver])
       | None => (fst lists ++ [solver], snd lists)
       end)
    solvers ([], []).

(** [NewtonRaphsonSolver::init], where [solvers] are the linear solvers of
    the current node, in the order [getObjects] gives them. *)
Definition init (solvers : list (SceneObject Vec Mat)) (s : Solver Vec Mat)
  : Solver Vec Mat * list InitMessage :=
  if negb (has_valid_linear_solver s) then
    let '(sofa_linear_solvers, caribou_linear_solvers) := classify solvers in
    match caribou_linear_solvers with
    | [] =>
        match sofa_linear_solvers with
        | [] => (s, [error_no_linear_solver])
        | _ :: _ =>
            (s, [error_no_compatible_linear_solver (List.length sofa_linear_solvers)])
        end
    | [first] =>
        (* msg_info() writes only when printLog is set *)
        (set_linear_solver s first,
         if f_printLog s then [info_linear_solver_found (getPathName first)] else [])
    | first :: _ :: _ =>
        (set_linear_solver s first, [warning_multiple_linear_solvers (getPathName first)])
    end
  else (s, []).

(** The object implements the Caribou interface. *)
Definition compatible (solver : SceneObject Vec Mat) : bool :=
  match dynamic_cast_LinearSolver (Some solver) with
  | Some _ => true
  | None => false
  end.

End Init.
End SolverInit.

(* ================================================================== *)
(** * NewtonRaphsonSolver: outputs and tolerances                      *)
(* ================================================================== *)

Module SolverOutputs.
Import NewtonRaphson.

(** The solver with the outputs of an earlier solve forgotten: the
    converged flag, both histories, the squared initial residual and the
    three buffers as the constructor leaves them. *)
Definition reset_outputs {Vec Mat : Type} (s : Solver Vec Mat) : Solver Vec Mat :=
  mkSolver (d_newton_iterations s) (d_correction_tolerance_threshold s)
           (d_residual_tolerance_threshold s) (f_printLog s) (l_linear_solver s)
           false (p_U_id s) [] [] 0%float None None None.

(** A tolerance that does not pass the test [tolerance > 0] of the
    convergence criteria: a negative one, zero, or NaN. *)
Definition disabled (tolerance : float) : Prop := (0 <? tolerance)%float = false.

End SolverOutputs.

(* ================================================================== *)
(** * More runs on the scene with one degree of freedom                *)
(* ================================================================== *)

Module SpringRuns2.
Import NewtonRaphson Spring.

Open Scope float_scope.

(** Both criteria disabled, two iterations allowed. *)
Definition blind_solver : Solver float float :=
  new_solver 2 (-1) (-1) true division_link.

(** No iteration allowed. *)
Definition idle_solver : Solver float float :=
  new_solver 0 default_tolerance default_tolerance true division_link.

(** Messages off. *)
Definition quiet_solver : Solver float float :=
  new_solver 3 default_tolerance default_tolerance false division_link.

(** A solver that kept the outputs of an earlier solve. *)
Definition used_solver : Solver float float :=
  mkSolver 3 default_tolerance default_tolerance true division_link
           true total_displacement [4; 1] [1000%Z; 1000%Z] 9 (Some 1) (Some 2) (Some 3).

(** A load that is not a number. *)
Definition nan_load : float := nan.

(** The linear solvers of a node: one of SOFA, then two of Caribou. *)
Definition node_solvers : list (SceneObject float float) :=
  [SofaLinearSolver "/root/CGLinearSolver";
   CaribouLinearSolver division_solver;
   CaribouLinearSolver failing_solver].

(** A solver without link and with messages off. *)
Definition quiet_unlinked_solver : Solver float float :=
  new_solver 3 default_tolerance default_tolerance false None.

Definition path_of (o : SceneObject float float) : string :=
  match o with
  | SofaLinearSolver name => name
  | CaribouLinearSolver _ => "/root/LinearSolver"
  end.

End SpringRuns2.

(* ================================================================== *)
(** * RectangularHexahedron: jacobian, intersection and quadrature     *)
(* ================================================================== *)

Module HexahedronQueries.
Import RectangularHexahedron.

(** What the intersection test needs of [FLOATING_POINT_TYPE] besides the
    arithmetic of [Scalar]: the comparison [<], the unary minus and the
    constant [.5]. *)
Class Ordered (F : Type) : Type := {
  s_ltb : F -> F -> bool;
  s_opp : F -> F;
  s_half : F
}.

#[export] Instance float_ordered : Ordered float := {
  s_ltb := PrimFloat.ltb;
  s_opp := PrimFloat.opp;
  s_half := 0x1p-1%float
}.

#[export] Instance real_ordered : Ordered R := {
  s_ltb := fun a b => if Rlt_dec a b then true else false;
  s_opp := Ropp;
  s_half := (1 / 2)%R
}.

Section Queries.
Context {F : Type} {SF : Scalar F} {OF : Ordered F}.

(** [EPSILON] of Caribou/config.h. *)
Variable EPSILON : F.

(** [Segment<3>], by its two nodes. *)
Record Segment : Type := mkSegment { node0 : Vector3 F; node1 : Vector3 F }.

(** [center()] and [frame()] *)
Definition center (h : Hexahedron F) : Vector3 F := p_center h.

Definition frame (h : Hexahedron F) : Mat33 F := p_R h.

(** [jacobian()]: [(1/2.*p_H).asDiagonal()] *)
Definition jacobian (h : Hexahedron F) : Mat33 F :=
  let half := s_div s_one s_two in
  mkMat33 (mkVector3 (s_mul half (vx (p_H h))) s_zero s_zero)
          (mkVector3 s_zero (s_mul half (vy (p_H h))) s_zero)
          (mkVector3 s_zero s_zero (s_mul half (vz (p_H h)))).

(** [v[i]] for i = 0, 1, 2. *)
Definition coord (i : nat) (v : Vector3 F) : F :=
  match i with
  | O => vx v
  | S O => vy v
  | _ => vz v
  end.

(** [(edge[i] < 0) ? -1 : 1], as the floating-point factor it is used as. *)
Definition edge_sign (e : F) : F :=
  if s_ltb e s_zero then s_opp s_one else s_one.

(** The two tests of the first loop of [intersects_local] for the axis [i]:
    [v0[i] * edge_signs[i] > .5+EPSILON] or
    [v1[i] * edge_signs[i] < -.5-EPSILON]. *)
Definition face_rejects (v0 v1 edge : Vector3 F) (i : nat) : bool :=
  s_ltb (s_add s_half EPSILON) (s_mul (coord i v0) (edge_sign (coord i edge)))
  || s_ltb (s_mul (coord i v1) (edge_sign (coord i edge))) (s_sub (s_opp s_half) EPSILON).

(** The test of the second loop for the axis [i]: [r > EPSILON]. *)
Definition rhomb_rejects (v0 edge : Vector3 F) (i : nat) : bool :=
  let iplus1 := ((i + 1) mod 3)%nat in
  let iplus2 := ((i + 2) mod 3)%nat in
  let rhomb_normal_dot_v0 :=
    s_sub (s_mul (coord iplus2 edge) (coord iplus1 v0))
          (s_mul (coord iplus1 edge) (coord iplus2 v0)) in
  let rhomb_normal_dot_cubedge :=
    s_mul s_half
          (s_add (s_mul (coord iplus2 edge) (edge_sign (coord iplus1 edge)))
                 (s_mul (coord iplus1 edge) (edge_sign (coord iplus2 edge)))) in
  let r := s_sub (s_mul rhomb_normal_dot_v0 rhomb_normal_dot_v0)
                 (s_mul rhomb_normal_dot_cubedge rhomb_normal_dot_cubedge) in
  s_ltb EPSILON r.

(** [intersects_local]: the segment, in the local coordinates of the
    hexahedron, against the cube [-1, 1]^3. *)
Definition intersects_local (segment : Segment) : bool :=
  let v0 := vec_div_scalar (node0 segment) s_two in
  let v1 := vec_div_scalar (node1 segment) s_two in
  let edge := vec_sub v1 v0 in
  if existsb (face_rejects v0 v1 edge) [0; 1; 2]%nat then false
  else if existsb (rhomb_rejects v0 edge) [0; 1; 2]%nat then false
  else true.

(** [intersects]: the segment in world coordinates. *)
Definition intersects (h : Hexahedron F) (segment : Segment) : bool :=
  intersects_local (mkSegment (Tinv h (node0 segment)) (Tinv h (node1 segment))).

(** Eigen's determinant of a 3x3 matrix: the expansion along the first
    row. *)
Definition det3_helper (m : Mat33 F) (a b c : nat) : F :=
  s_mul (coord a (row0 m))
        (s_sub (s_mul (coord b (row1 m)) (coord c (row2 m)))
               (s_mul (coord c (row1 m)) (coord b (row2 m)))).

Definition determinant (m : Mat33 F) : F :=
  s_add (s_sub (det3_helper m 0 1 2) (det3_helper m 1 0 2)) (det3_helper m 2 0 1).

(** [gauss_quadrature(f)], for the Gauss nodes and weights of the
    canonical element: the first one, [gauss_nodes[0]] and
    [gauss_weights[0]], and the others in their order. *)
Definition gauss_quadrature (first : Vector3 F * F) (others : list (Vector3 F * F))
  (h : Hexahedron F) (f : Hexahedron F -> Vector3 F -> F) : F :=
  let detJ := determinant (jacobian h) in
  fold_left
    (fun result pw => s_add result (s_mul (s_mul (f h (fst pw)) (snd pw)) detJ))
    others
    (s_mul (s_mul (f h (fst first)) (snd first)) detJ).

(** The rows of the rotation are orthonormal: [p_R * p_R.transpose()] is
    the identity. *)
Definition orthogonal_rows (h : Hexahedron F) : Prop :=
  mat_mul (p_R h) (transpose (p_R h)) = Identity.

End Queries.

Arguments Segment F : clear implicits.

(** A point of the cube [-1, 1]^3. *)
Definition inside (v : Vector3 R) : Prop :=
  (-1 <= vx v <= 1 /\ -1 <= vy v <= 1 /\ -1 <= vz v <= 1)%R.

(** A vector of doubles whose three coordinates are NaN. *)
Definition all_nan (v : Vector3 float) : Prop :=
  is_nan (vx v) = true /\ is_nan (vy v) = true /\ is_nan (vz v) = true.

(** The sum of the weights of a quadrature rule. *)
Definition total_weight (first : Vector3 R * R) (others : list (Vector3 R * R)) : R :=
  fold_left (fun acc pw => (acc + snd pw)%R) others (snd first).

End HexahedronQueries.

(* ================================================================== *)
(** * A rotated hexahedron and the tests on the outputs of a solve     *)
(* ================================================================== *)

Module HexahedronInputs.
Import RectangularHexahedron.

Open Scope R_scope.

(** Over the reals: the hexahedron of size 2 x 4 x 6 centred at
    (5, -1, 2), turned by a quarter of a turn about the z axis. *)
Definition turned_hexahedron : Hexahedron R :=
  mkHexahedron (mkVector3 5 (-1) 2)
               (mkVector3 2 4 6)
               (mkMat33 (mkVector3 0 (-1) 0)
                        (mkVector3 1 0 0)
                        (mkVector3 0 0 1)).

End HexahedronInputs.

Module SolverObservation.
Import NewtonRaphson.

Section Observation.
Context {World Vec Mat : Type} {SC : Scene World Vec Mat}.

(** What part 6 of the loop body computes, on a scene [w]:
    [vop.v_dot(dx_id, dx_id)] and [vop.v_dot(p_U_id, p_U_id)]. *)
Definition increment_squared_norm (w : World) : float := v_dot dx dx w.

Definition total_squared_norm (s : Solver Vec Mat) (w : World) : float :=
  v_dot (p_U_id s) (p_U_id s) w.

(** The three tests at the end of the loop body, read on what a solve
    leaves behind.  [R_squared_norm] is the last entry of
    [p_squared_residuals], [p_squared_residuals[0]] its first entry, and
    [dx_squared_norm] and [du_squared_norm] are the two norms on the scene
    [w]; the tolerances are the options of the solver.

    [std::isnan(R_squared_norm) or std::isnan(dx_squared_norm) or
     du_squared_norm < EPSILON] *)
Definition last_divergence_test (s : Solver Vec Mat) (w : World) : bool :=
  is_nan (last (p_squared_residuals s) 0%float)
  || is_nan (increment_squared_norm w)
  || (total_squared_norm s w <? EPSILON)%float.

(** [correction_tolerance_threshold > 0 and
     dx_squared_norm < squared_correction_threshold*du_squared_norm] *)
Definition last_correction_test (s : Solver Vec Mat) (w : World) : bool :=
  (0 <? d_correction_tolerance_threshold s)%float
  && (increment_squared_norm w
        <? d_correction_tolerance_threshold s * d_correction_tolerance_threshold s
           * total_squared_norm s w)%float.

(** [residual_tolerance_threshold > 0 and
     R_squared_norm < squared_residual_threshold*p_squared_residuals[0]] *)
Definition last_residual_test (s : Solver Vec Mat) : bool :=
  (0 <? d_residual_tolerance_threshold s)%float
  && (last (p_squared_residuals s) 0%float
        <? d_residual_tolerance_threshold s * d_residual_tolerance_threshold s
           * hd 0%float (p_squared_residuals s))%float.

End Observation.
End SolverObservation.

(* ================================================================== *)
(** * Properties of the Newton-Raphson solver                          *)
(* ================================================================== *)

Import NewtonRaphson.

Unset Implicit Arguments.

Lemma unsigned_small (z : Z) : (0 <= z < 2 ^ 32)%Z -> unsigned z = z.
Proof. intros H. unfold unsigned. now apply Z.mod_small. Qed.

Section LoopFacts.
Context {World Vec Mat : Type} {SC : Scene World Vec Mat}.
Open Scope Z_scope.

Lemma newton_update_failed (o : Options Vec Mat) (st : LoopState World Vec Mat) :
  fst (solved o st) = false ->
  newton_update o st =
    inl (mkLoopState (fst (assembled o st)) (st_messages st) (S (st_clock_reads st))
                     (snd (assembled o st)) (snd (solved o st)) (st_F st)
                     (st_squared_residuals st) (st_times st)
                     (n_it st) (R_squared_norm st) (converged st) true).
Proof.
  unfold solved, assembled, newton_update.
  destruct (assemble_system_matrix _ _ _) as [w1 A1]; simpl.
  destruct (linear_solve _ _ _ _) as [ok DX1]; simpl.
  intros ->; reflexivity.
Qed.

Lemma newton_update_inl (o : Options Vec Mat) (st st' : LoopState World Vec Mat) :
  newton_update o st = inl st' -> fst (solved o st) = false.
Proof.
  unfold solved, assembled, newton_update.
  destruct (assemble_system_matrix _ _ _) as [w1 A1]; simpl.
  destruct (linear_solve _ _ _ _) as [ok DX1]; simpl.
  destruct ok; simpl; [|reflexivity].
  destruct (1 <? newton_iterations o).
  - destruct (assemble_rhs_vector _ _ _ _); discriminate.
  - discriminate.
Qed.

(** A pass whose linear solve succeeds records one entry in each history,
    counts the iteration and leaves the flags as they were. *)
Lemma newton_update_inr (o : Options Vec Mat) (st : LoopState World Vec Mat) (u : Update World Vec Mat) :
  newton_update o st = inr u ->
  fst (solved o st) = true
  /\ (exists t, st_times (up_state u) = st_times st ++ [t])
  /\ st_squared_residuals (up_state u)
     = st_squared_residuals st ++ [R_squared_norm (up_state u)]
  /\ n_it (up_state u) = unsigned (n_it st + 1)
  /\ converged (up_state u) = converged st
  /\ diverged (up_state u) = diverged st
  /\ (newton_iterations o <= 1 ->
      R_squared_norm (up_state u) = R_squared_norm st
      /\ st_F (up_state u) = st_F st
      /\ st_world (up_state u)
         = v_peq (U_id o) dx
             (propagate_position_increment (mechanical_parameters o) (snd (solved o st))
                (x_id o) (v_id o) dx (fst (assembled o st)))).
Proof.
  unfold solved, assembled, newton_update.
  destruct (assemble_system_matrix _ _ _) as [w1 A1]; simpl.
  destruct (linear_solve _ _ _ _) as [ok DX1]; simpl.
  destruct ok; simpl; [|discriminate].
  destruct (1 <? newton_iterations o) eqn:E.
  - destruct (assemble_rhs_vector _ _ _ _) as [w F']. intros [= <-]; simpl.
    repeat split; eauto; apply Z.ltb_lt in E; lia.
  - intros [= <-]; simpl. repeat split; eauto.
Qed.

(** The tests change nothing but the flags, the messages and, when the
    loop goes on, the cleared increment. *)
Lemma newton_checks_frame (o : Options Vec Mat) (u : Update World Vec Mat) (st' : LoopState World Vec Mat) (b : bool) :
  newton_checks o u = (st', b) ->
  st_squared_residuals st' = st_squared_residuals (up_state u)
  /\ st_times st' = st_times (up_state u)
  /\ n_it st' = n_it (up_state u)
  /\ R_squared_norm st' = R_squared_norm (up_state u)
  /\ st_F st' = st_F (up_state u)
  /\ (st_world st' = st_world (up_state u)
      \/ st_world st' = v_clear dx (st_world (up_state u))).
Proof.
  unfold newton_checks.
  destruct (divergence_test u); [|destruct (correction_test o u); [|destruct (residual_test o u)]];
    intros [= <- <-]; simpl; repeat split; auto.
Qed.

(** The flags after the tests, by the test that fired. *)
Lemma newton_checks_flags (o : Options Vec Mat) (u : Update World Vec Mat) (st' : LoopState World Vec Mat) (b : bool) :
  newton_checks o u = (st', b) ->
  (divergence_test u = true /\ b = true
     /\ converged st' = converged (up_state u) /\ diverged st' = true)
  \/ (divergence_test u = false /\ (correction_test o u || residual_test o u) = true
     /\ b = true /\ converged st' = true /\ diverged st' = diverged (up_state u))
  \/ (divergence_test u = false /\ correction_test o u = false /\ residual_test o u = false
     /\ b = false /\ converged st' = converged (up_state u)
     /\ diverged st' = diverged (up_state u)).
Proof.
  unfold newton_checks.
  destruct (divergence_test u); [|destruct (correction_test o u); [|destruct (residual_test o u)]];
    intros [= <- <-]; simpl; intuition.
Qed.

End LoopFacts.

Section LoopProperties.
Context {World Vec Mat : Type} {SC : Scene World Vec Mat}.
Open Scope Z_scope.

Lemma newton_iteration_counted (o : Options Vec Mat) (st st' : LoopState World Vec Mat) (b : bool) :
  newton_iterations o < 2 ^ 32 ->
  counted o st -> n_it st < newton_iterations o ->
  newton_iteration o st = (st', b) ->
  counted o st' /\ (b = false -> n_it st' = n_it st + 1).
Proof.
  intros Hmax (Hlen & Hn & Hlo & Hhi) Hlt. unfold newton_iteration.
  destruct (newton_update o st) as [d|u] eqn:E.
  - pose proof (newton_update_inl _ _ _ E) as Hf.
    rewrite (newton_update_failed _ _ Hf) in E. injection E as <-.
    intros [= <- <-]. split; [|discriminate].
    unfold counted; simpl. lia.
  - destruct (newton_update_inr _ _ _ E) as (_ & [t Ht] & Hr & Hc & _).
    intros C. destruct (newton_checks_frame _ _ _ _ C) as (Fr & Ft & Fn & _).
    rewrite unsigned_small in Hc by lia.
    split; [|intros _; lia].
    unfold counted. rewrite Fr, Ft, Fn, Hr, Ht, Hc, !length_app. simpl. lia.
Qed.

Lemma newton_iteration_flags (o : Options Vec Mat) (st st' : LoopState World Vec Mat) (b : bool) :
  converged st = false -> diverged st = false ->
  newton_iteration o st = (st', b) ->
  (b = false /\ converged st' = false /\ diverged st' = false)
  \/ (b = true /\ converged st' = true /\ diverged st' = false)
  \/ (b = true /\ converged st' = false /\ diverged st' = true).
Proof.
  intros Hc Hd. unfold newton_iteration.
  destruct (newton_update o st) as [d|u] eqn:E.
  - pose proof (newton_update_inl _ _ _ E) as Hf.
    rewrite (newton_update_failed _ _ Hf) in E. injection E as <-.
    intros [= <- <-]. simpl. auto.
  - destruct (newton_update_inr _ _ _ E) as (_ & _ & _ & _ & Uc & Ud & _).
    intros C.
    destruct (newton_checks_flags _ _ _ _ C)
      as [(_ & -> & -> & ->)|[(_ & _ & -> & -> & ->)|(_ & _ & _ & -> & -> & ->)]];
      rewrite ?Uc, ?Ud, ?Hc, ?Hd; auto.
Qed.

Lemma newton_loop_exit (fuel : nat) (o : Options Vec Mat) :
  newton_iterations o < 2 ^ 32 ->
  forall st st' : LoopState World Vec Mat,
    counted o st -> diverged st = false ->
    newton_loop fuel o st = Some st' ->
    counted o st' /\ ended o st'.
Proof.
  intros Hmax. induction fuel as [|fuel IH]; intros st st' Hcnt Hd; simpl.
  - destruct (converged st) eqn:Hc; simpl.
    + intros [= <-]. split; [assumption|left; auto].
    + destruct (n_it st <? newton_iterations o) eqn:Hlt; [discriminate|].
      intros [= <-]. split; [assumption|]. right; right.
      apply Z.ltb_ge in Hlt. destruct Hcnt as (_ & _ & _ & ?). repeat split; auto; lia.
  - destruct (converged st) eqn:Hc; simpl.
    + intros [= <-]. split; [assumption|left; auto].
    + destruct (n_it st <? newton_iterations o) eqn:Hlt.
      * apply Z.ltb_lt in Hlt.
        destruct (newton_iteration o st) as [st1 b] eqn:E.
        destruct (newton_iteration_counted _ _ _ _ Hmax Hcnt Hlt E) as [Hcnt1 _].
        destruct (newton_iteration_flags _ _ _ _ Hc Hd E)
          as [(-> & Hc1 & Hd1)|[(-> & Hc1 & Hd1)|(-> & Hc1 & Hd1)]].
        -- intros L. exact (IH _ _ Hcnt1 Hd1 L).
        -- intros [= <-]. split; [assumption|left; auto].
        -- intros [= <-]. split; [assumption|right; left; auto].
      * intros [= <-]. split; [assumption|]. right; right.
        apply Z.ltb_ge in Hlt. destruct Hcnt as (_ & _ & _ & ?). repeat split; auto; lia.
Qed.

(** The loop ends within the configured number of passes. *)
Lemma newton_loop_terminates (fuel : nat) (o : Options Vec Mat) :
  newton_iterations o < 2 ^ 32 ->
  forall st : LoopState World Vec Mat,
    counted o st ->
    newton_iterations o - n_it st <= Z.of_nat fuel ->
    exists st', newton_loop fuel o st = Some st'.
Proof.
  intros Hmax. induction fuel as [|fuel IH]; intros st Hcnt Hfuel; simpl.
  - destruct (converged st); simpl; [eauto|].
    destruct (n_it st <? newton_iterations o) eqn:Hlt; [|eauto].
    apply Z.ltb_lt in Hlt. lia.
  - destruct (converged st); simpl; [eauto|].
    destruct (n_it st <? newton_iterations o) eqn:Hlt; [|eauto].
    apply Z.ltb_lt in Hlt.
    destruct (newton_iteration o st) as [st1 b] eqn:E.
    destruct (newton_iteration_counted _ _ _ _ Hmax Hcnt Hlt E) as [Hcnt1 Hn].
    destruct b; [eauto|].
    apply IH; [assumption|]. rewrite Hn by reflexivity. lia.
Qed.

End LoopProperties.

Section SolveProperties.
Context {World Vec Mat : Type} {SC : Scene World Vec Mat}.
Open Scope Z_scope.

Lemma has_valid_cast (s : Solver Vec Mat) :
  has_valid_linear_solver s = true <->
  exists ls, dynamic_cast_LinearSolver (l_linear_solver s) = Some ls.
Proof.
  unfold has_valid_linear_solver.
  destruct (l_linear_solver s) as [[ls|name]|]; simpl; split;
    try discriminate; try (intros [? ?]; discriminate); eauto.
Qed.

(** The state [solve] enters the loop with. *)
Lemma solve_init_facts (ls : LinearSolver Vec Mat) (s : Solver Vec Mat)
  (p : Process World) (dt : float) (x v : VecId) :
  let o := fst (solve_init ls s p dt x v) in
  let st0 := snd (solve_init ls s p dt x v) in
  newton_iterations o = d_newton_iterations s
  /\ linear_solver o = ls
  /\ print_log o = f_printLog s
  /\ residual_tolerance_threshold o = d_residual_tolerance_threshold s
  /\ correction_tolerance_threshold o = d_correction_tolerance_threshold s
  /\ st_squared_residuals st0 = []
  /\ st_times st0 = []
  /\ n_it st0 = 0
  /\ diverged st0 = false
  /\ converged st0
     = ((0 <? d_residual_tolerance_threshold s)%float
        && (R_squared_norm st0 <=? d_residual_tolerance_threshold s)%float).
Proof.
  unfold solve_init.
  destruct (assemble_rhs_vector _ _ _ _) as [w F]; simpl.
  repeat split; reflexivity.
Qed.

Lemma solve_init_counted (ls : LinearSolver Vec Mat) (s : Solver Vec Mat)
  (p : Process World) (dt : float) (x v : VecId) :
  well_formed s ->
  counted (fst (solve_init ls s p dt x v)) (snd (solve_init ls s p dt x v)).
Proof.
  intros [Hlo Hhi].
  destruct (solve_init_facts ls s p dt x v) as (HN & _ & _ & _ & _ & Hr & Ht & Hn & _).
  unfold counted. rewrite Hr, Ht, Hn, HN. simpl. lia.
Qed.

(** With a valid linear solver, [solve] returns: the loop ends within the
    passes [solve] allows, in one of the three ways, with as many history
    entries as iterations counted. *)
Lemma solve_valid (ls : LinearSolver Vec Mat) (s : Solver Vec Mat)
  (p : Process World) (dt : float) (x v : VecId) :
  well_formed s ->
  dynamic_cast_LinearSolver (l_linear_solver s) = Some ls ->
  let o := fst (solve_init ls s p dt x v) in
  let st0 := snd (solve_init ls s p dt x v) in
  exists st,
    newton_loop (Z.to_nat (d_newton_iterations s)) o st0 = Some st
    /\ solve s p dt x v = Some (solve_finish s p o st0 st)
    /\ counted o st /\ ended o st.
Proof.
  intros Hwf Hcast o st0.
  pose proof (solve_init_counted ls s p dt x v Hwf) as Hcnt.
  destruct (solve_init_facts ls s p dt x v) as (HN & _ & _ & _ & _ & _ & _ & Hn & Hd & _).
  fold o in HN, Hcnt. fold st0 in Hn, Hd, Hcnt.
  assert (Hmax : newton_iterations o < 2 ^ 32) by (rewrite HN; apply Hwf).
  destruct (newton_loop_terminates (Z.to_nat (d_newton_iterations s)) o Hmax st0 Hcnt) as [st Hst].
  { rewrite Hn, HN. destruct Hwf. lia. }
  exists st. split; [exact Hst|].
  destruct (newton_loop_exit _ o Hmax st0 st Hcnt Hd Hst) as [Hc He].
  split; [|split; assumption].
  unfold solve, solve_with.
  assert (Hv : has_valid_linear_solver s = true) by (apply has_valid_cast; eauto).
  rewrite Hv, Hcast. simpl.
  unfold o, st0 in Hst |- *.
  destruct (solve_init ls s p dt x v) as [o' st0']. simpl in *.
  rewrite Hst. reflexivity.
Qed.

Lemma nb_iterations_counter (n : Z) :
  0 <= n < 2 ^ 32 -> unsigned (unsigned (n - 1) + 1) = n.
Proof.
  intros H. unfold unsigned.
  rewrite Zplus_mod_idemp_l. replace (n - 1 + 1) with n by lia.
  now apply Z.mod_small.
Qed.

End SolveProperties.

Section SolverClaims.
Context {World Vec Mat : Type} {SC : Scene World Vec Mat}.
Open Scope Z_scope.

(** C3: in an iteration whose linear solve succeeded, if the squared norm
    of the residual is NaN, or the squared norm of the increment is NaN,
    or the squared norm of the total displacement is below EPSILON, the
    iteration ends with the diverged flag set and leaves the loop at
    once.  The state it leaves is the recorded iteration with the flag
    and the [DIVERGED] message: the converged flag stays unset whatever
    the correction and residual tests would give. *)
Theorem divergence_checked_before_convergence
  (o : Options Vec Mat) (st : LoopState World Vec Mat) (u : Update World Vec Mat)
  (fuel : nat) :
  converged st = false ->
  n_it st < newton_iterations o ->
  newton_update o st = inr u ->
  is_nan (R_squared_norm (up_state u)) = true
  \/ is_nan (dx_squared_norm u) = true
  \/ (du_squared_norm u <? EPSILON)%float = true ->
  let st' :=
    with_flags (up_state u)
      (if print_log o
       then [info_diverged (is_nan (R_squared_norm (up_state u)))
                           (is_nan (dx_squared_norm u))
                           (du_squared_norm u <? EPSILON)%float]
       else [])
      false true in
  newton_iteration o st = (st', true)
  /\ newton_loop (S fuel) o st = Some st'
  /\ diverged st' = true
  /\ converged st' = false.
Proof.
  intros Hc Hlt Hu Hdiv st'.
  assert (Ht : divergence_test u = true).
  { unfold divergence_test. destruct Hdiv as [->|[->| ->]];
      rewrite ?orb_true_r; reflexivity. }
  destruct (newton_update_inr _ _ _ Hu) as (_ & _ & _ & _ & Uc & _).
  assert (Hit : newton_iteration o st = (st', true)).
  { unfold newton_iteration, newton_checks. rewrite Hu, Ht, Uc, Hc. reflexivity. }
  split; [exact Hit|]. split; [|split; reflexivity].
  simpl. rewrite Hc. apply Z.ltb_lt in Hlt. rewrite Hlt. simpl.
  rewrite Hit. reflexivity.
Qed.

(** A pass whose linear solve fails ends the loop with the state that
    [newton_update] returns on that path. *)
Lemma newton_loop_failed_solve
  (o : Options Vec Mat) (st : LoopState World Vec Mat) (fuel : nat) :
  converged st = false ->
  n_it st < newton_iterations o ->
  fst (solved o st) = false ->
  newton_loop (S fuel) o st =
    Some (mkLoopState (fst (assembled o st)) (st_messages st) (S (st_clock_reads st))
                      (snd (assembled o st)) (snd (solved o st)) (st_F st)
                      (st_squared_residuals st) (st_times st)
                      (n_it st) (R_squared_norm st) (converged st) true).
Proof.
  intros Hc Hlt Hf.
  simpl. apply Z.ltb_lt in Hlt. rewrite Hlt, Hc. simpl.
  unfold newton_iteration. rewrite (newton_update_failed _ _ Hf), Hc. reflexivity.
Qed.

(** C4: in an iteration whose linear solve returns false, the loop is
    left at once with the diverged flag set: the scene is the one the
    tangent assembly of this iteration left (nothing was propagated or
    accumulated), the right-hand side, the counter and both histories
    are the ones the iteration started with. *)
Theorem linear_solve_failure_diverges
  (o : Options Vec Mat) (st : LoopState World Vec Mat) (fuel : nat) :
  converged st = false ->
  n_it st < newton_iterations o ->
  fst (solved o st) = false ->
  exists st',
    newton_loop (S fuel) o st = Some st'
    /\ diverged st' = true
    /\ converged st' = false
    /\ st_world st' = fst (assembled o st)
    /\ st_F st' = st_F st
    /\ n_it st' = n_it st
    /\ st_squared_residuals st' = st_squared_residuals st
    /\ st_times st' = st_times st.
Proof.
  intros Hc Hlt Hf.
  eexists. split; [apply newton_loop_failed_solve; assumption|].
  simpl. repeat split; auto.
Qed.

(** C5: after a solve with a valid linear solver, the history of squared
    residuals and the history of iteration times have the same length,
    that length is the number of iterations completed (the value given to
    the timer as nb_iterations), and it is at most newton_iterations. *)
Theorem telemetry_lengths
  (s : Solver Vec Mat) (p : Process World) (dt : float) (x v : VecId) :
  well_formed s ->
  has_valid_linear_solver s = true ->
  exists s' p' e,
    solve s p dt x v = Some (s', p', Some e)
    /\ List.length (p_squared_residuals s') = List.length (p_times s')
    /\ Z.of_nat (List.length (p_squared_residuals s')) = nb_iterations e
    /\ In ("nb_iterations"%string, nb_iterations e) (timer_values p')
    /\ nb_iterations e <= d_newton_iterations s.
Proof.
  intros Hwf Hv. apply has_valid_cast in Hv. destruct Hv as [ls Hcast].
  destruct (solve_valid ls s p dt x v Hwf Hcast) as (st & _ & Hs & Hcnt & _).
  destruct (solve_init_facts ls s p dt x v) as (HN & _).
  destruct Hcnt as (Hlen & Hn & Hlo & Hhi). rewrite HN in Hhi.
  do 3 eexists. split; [exact Hs|]. simpl.
  unfold nb_iterations; simpl.
  rewrite nb_iterations_counter by (destruct Hwf; lia).
  repeat split; auto.
  apply in_or_app. right. right. left. reflexivity.
Qed.

(** C6: at the exit of a solve with a valid linear solver exactly one of
    these holds: converged is set (and diverged is not), diverged is set
    (and converged is not), or neither is set and the number of completed
    iterations is newton_iterations.  In the last case solve returns as
    usual with converged = false, and under printLog the message on the
    exhausted budget is the last one written. *)
Theorem exactly_one_exit_condition
  (s : Solver Vec Mat) (p : Process World) (dt : float) (x v : VecId) :
  well_formed s ->
  has_valid_linear_solver s = true ->
  exists s' p' e,
    solve s p dt x v = Some (s', p', Some e)
    /\ d_converged s' = exit_converged e
    /\ ((exit_converged e = true /\ exit_diverged e = false)
        \/ (exit_converged e = false /\ exit_diverged e = true)
        \/ (exit_converged e = false /\ exit_diverged e = false
            /\ nb_iterations e = d_newton_iterations s
            /\ (f_printLog s = true ->
                exists before,
                  messages p' = before ++ [info_max_iterations (d_newton_iterations s)]))).
Proof.
  intros Hwf Hv. apply has_valid_cast in Hv. destruct Hv as [ls Hcast].
  destruct (solve_valid ls s p dt x v Hwf Hcast) as (st & _ & Hs & Hcnt & Hend).
  destruct (solve_init_facts ls s p dt x v) as (HN & _ & HP & _).
  destruct Hcnt as (Hlen & Hn & Hlo & Hhi). rewrite HN in Hhi.
  do 3 eexists. split; [exact Hs|]. simpl. split; [reflexivity|].
  destruct Hend as [[Hc Hd]|[[Hc Hd]|(Hc & Hd & Hmax)]]; auto.
  right; right. rewrite HN in Hmax.
  unfold nb_iterations; simpl.
  rewrite nb_iterations_counter by (destruct Hwf; lia).
  repeat split; auto.
  intros Hlog. rewrite Hc, Hd, HN, Hmax, Z.eqb_refl. simpl.
  unfold log. rewrite HP, Hlog. eauto.
Qed.

End SolverClaims.

Section SolveClaims.
Context {World Vec Mat : Type} {SC : Scene World Vec Mat}.
Open Scope Z_scope.

(** C7, for a linear solve that succeeds: with newton_iterations = 1, when
    the initial residual does not end the solve and the linear solve of
    the iteration succeeds, exactly one iteration is made and recorded,
    the right-hand side is the one assembled before the loop (the scene
    goes from the propagation straight to the accumulation of the total
    displacement), and the squared residual recorded is the squared
    initial residual. *)
Theorem single_iteration_mode
  (ls : LinearSolver Vec Mat) (s : Solver Vec Mat) (p : Process World)
  (dt : float) (x v : VecId) :
  dynamic_cast_LinearSolver (l_linear_solver s) = Some ls ->
  d_newton_iterations s = 1 ->
  converged (snd (solve_init ls s p dt x v)) = false ->
  fst (solved (fst (solve_init ls s p dt x v)) (snd (solve_init ls s p dt x v))) = true ->
  let o := fst (solve_init ls s p dt x v) in
  let st0 := snd (solve_init ls s p dt x v) in
  let moved :=
    v_peq (U_id o) dx
      (propagate_position_increment (mechanical_parameters o) (snd (solved o st0))
         (x_id o) (v_id o) dx (fst (assembled o st0))) in
  exists s' p' e,
    solve s p dt x v = Some (s', p', Some e)
    /\ nb_iterations e = 1
    /\ p_squared_residuals s' = [p_squared_initial_residual s']
    /\ List.length (p_times s') = 1%nat
    /\ p_squared_initial_residual s' = R_squared_norm st0
    /\ p_F s' = Some (st_F st0)
    /\ (world p' = moved \/ world p' = v_clear dx moved).
Proof.
  intros Hcast H1 Hconv Hsolved o st0 moved.
  destruct (solve_init_facts ls s p dt x v)
    as (HN & _ & _ & _ & _ & Hr & Ht & Hn & _).
  fold o in HN. fold st0 in Hr, Ht, Hn, Hconv. fold o st0 in Hsolved.
  rewrite H1 in HN.
  destruct (newton_update o st0) as [d|u] eqn:E.
  { apply newton_update_inl in E. congruence. }
  destruct (newton_update_inr _ _ _ E)
    as (_ & [t Ut] & Ur & Un & _ & _ & Hone).
  destruct Hone as (UR & UF & UW); [lia|].
  destruct (newton_checks o u) as [st1 b] eqn:C.
  destruct (newton_checks_frame _ _ _ _ C) as (Fr & Ft & Fn & _ & FF & FW).
  assert (Hloop : newton_loop 1 o st0 = Some st1).
  { simpl. rewrite Hconv, Hn, HN. simpl.
    unfold newton_iteration. rewrite E, C.
    destruct b; [reflexivity|].
    rewrite Fn, Un, Hn. simpl.
    rewrite andb_false_r. reflexivity. }
  exists (fst (fst (solve_finish s p o st0 st1))),
         (snd (fst (solve_finish s p o st0 st1))),
         (mkExit (converged st1) (diverged st1) (unsigned (n_it st1 - 1))).
  split.
  - unfold solve, solve_with.
    assert (Hv : has_valid_linear_solver s = true) by (apply has_valid_cast; eauto).
    rewrite Hv, Hcast, H1. simpl negb. cbv iota.
    change (Z.to_nat 1) with 1%nat.
    unfold o, st0 in Hloop |- *.
    destruct (solve_init ls s p dt x v) as [o' st0']. simpl fst in *. simpl snd in *.
    rewrite Hloop. reflexivity.
  - simpl. rewrite Fr, Ft, FF, Ur, Ut, Hr, Ht, UR, UF. simpl.
    unfold nb_iterations; simpl. rewrite Fn, Un, Hn. simpl.
    repeat split; auto.
    fold moved in UW. rewrite <- UW. exact FW.
Qed.

(** X7: With newton_iterations >= 1 and an initial residual that does not end
    the solve, a linear solver that always fails makes the solve end
    diverged in its first pass: no iteration is counted or recorded, and
    the scene is the one the first tangent assembly left. *)
Lemma always_failing_linear_solver
  (ls : LinearSolver Vec Mat) (s : Solver Vec Mat) (p : Process World)
  (dt : float) (x v : VecId) :
  dynamic_cast_LinearSolver (l_linear_solver s) = Some ls ->
  (forall A F X, fst (linear_solve ls A F X) = false) ->
  0 < d_newton_iterations s ->
  converged (snd (solve_init ls s p dt x v)) = false ->
  exists s' p' e,
    solve s p dt x v = Some (s', p', Some e)
    /\ exit_diverged e = true
    /\ d_converged s' = false
    /\ nb_iterations e = 0
    /\ p_squared_residuals s' = []
    /\ p_times s' = []
    /\ world p'
       = fst (assembled (fst (solve_init ls s p dt x v)) (snd (solve_init ls s p dt x v))).
Proof.
  intros Hcast Hfail Hpos Hconv.
  destruct (solve_init_facts ls s p dt x v)
    as (HN & Hls & _ & _ & _ & Hr & Ht & Hn & _).
  assert (Hf : fst (solved (fst (solve_init ls s p dt x v))
                           (snd (solve_init ls s p dt x v))) = false).
  { unfold solved. rewrite Hls. apply Hfail. }
  destruct (Z.to_nat (d_newton_iterations s)) as [|fuel] eqn:Hfuel; [lia|].
  pose proof (newton_loop_failed_solve
                (fst (solve_init ls s p dt x v)) (snd (solve_init ls s p dt x v)) fuel
                Hconv) as Hloop.
  rewrite Hn, HN in Hloop. specialize (Hloop Hpos Hf).
  assert (Hs : solve s p dt x v
               = Some (solve_finish s p (fst (solve_init ls s p dt x v))
                         (snd (solve_init ls s p dt x v))
                         (mkLoopState
                            (fst (assembled (fst (solve_init ls s p dt x v))
                                            (snd (solve_init ls s p dt x v))))
                            (st_messages (snd (solve_init ls s p dt x v)))
                            (S (st_clock_reads (snd (solve_init ls s p dt x v))))
                            (snd (assembled (fst (solve_init ls s p dt x v))
                                            (snd (solve_init ls s p dt x v))))
                            (snd (solved (fst (solve_init ls s p dt x v))
                                         (snd (solve_init ls s p dt x v))))
                            (st_F (snd (solve_init ls s p dt x v)))
                            (st_squared_residuals (snd (solve_init ls s p dt x v)))
                            (st_times (snd (solve_init ls s p dt x v)))
                            0
                            (R_squared_norm (snd (solve_init ls s p dt x v)))
                            (converged (snd (solve_init ls s p dt x v)))
                            true))).
  { unfold solve, solve_with.
    assert (Hv : has_valid_linear_solver s = true) by (apply has_valid_cast; eauto).
    rewrite Hv, Hcast, Hfuel. simpl negb. cbv iota.
    destruct (solve_init ls s p dt x v) as [o' st0']. simpl fst in *. simpl snd in *.
    rewrite Hloop. reflexivity. }
  do 3 eexists. split; [exact Hs|].
  simpl. rewrite Hconv, Hr, Ht. repeat split; reflexivity.
Qed.

Lemma invalid_solve
  (s : Solver Vec Mat) (p : Process World) (dt : float) (x v : VecId) :
  has_valid_linear_solver s = false ->
  solve s p dt x v =
    Some (s,
          if error_message_already_printed p then p
          else mkProcess true (world p) (messages p ++ no_linear_solver_errors)
                         (clock_reads p) (timer_values p),
          None).
Proof.
  intros Hv. unfold solve, solve_with. rewrite Hv. simpl.
  destruct (error_message_already_printed p); reflexivity.
Qed.

Lemma solve_all_invalid (calls : list (Solver Vec Mat * float * VecId * VecId)) :
  Forall (fun c => has_valid_linear_solver (fst (fst (fst c))) = false) calls ->
  forall p : Process World,
    error_message_already_printed p = true ->
    solve_all calls p = Some (map (fun c => fst (fst (fst c))) calls, p).
Proof.
  induction 1 as [|[[[s dt] x] v] rest Hs _ IH]; intros p Hp; simpl.
  - reflexivity.
  - simpl in Hs. rewrite (invalid_solve s p dt x v Hs), Hp.
    rewrite (IH p Hp). reflexivity.
Qed.

(** C8: a solve on a solver without a compatible linear solver returns
    the solver object as it was (converged flag, both histories, squared
    initial residual), and leaves the scene, the clock and the timer
    values untouched.  It writes the two error lines only if the flag
    says that they were not written yet, and any number of such calls
    that follow it, on whatever solver objects, change nothing at all:
    the error is written by the first call of the run only. *)
Theorem misconfigured_solve_is_noop
  (s : Solver Vec Mat) (p : Process World) (dt : float) (x v : VecId)
  (calls : list (Solver Vec Mat * float * VecId * VecId)) :
  has_valid_linear_solver s = false ->
  Forall (fun c => has_valid_linear_solver (fst (fst (fst c))) = false) calls ->
  exists p1,
    solve s p dt x v = Some (s, p1, None)
    /\ world p1 = world p
    /\ clock_reads p1 = clock_reads p
    /\ timer_values p1 = timer_values p
    /\ messages p1
       = messages p ++ (if error_message_already_printed p then []
                        else no_linear_solver_errors)
    /\ solve_all calls p1 = Some (map (fun c => fst (fst (fst c))) calls, p1).
Proof.
  intros Hv Hcalls. eexists. split; [apply invalid_solve; exact Hv|].
  destruct (error_message_already_printed p) eqn:Hp.
  - rewrite app_nil_r. repeat split; auto.
    apply solve_all_invalid; assumption.
  - simpl. repeat split; auto.
    apply solve_all_invalid; [assumption|reflexivity].
Qed.

(** A solve with a valid linear solver clears the flag: the next solve
    without one is the first of its run and writes the error. *)
Lemma valid_solve_resets_flag
  (s : Solver Vec Mat) (p : Process World) (dt : float) (x v : VecId) :
  well_formed s ->
  has_valid_linear_solver s = true ->
  exists s' p' e,
    solve s p dt x v = Some (s', p', Some e)
    /\ error_message_already_printed p' = false.
Proof.
  intros Hwf Hv. apply has_valid_cast in Hv. destruct Hv as [ls Hcast].
  destruct (solve_valid ls s p dt x v Hwf Hcast) as (st & _ & Hs & _).
  do 3 eexists. split; [exact Hs|reflexivity].
Qed.

(** X6: What the test of the initial residual does: with a positive residual
    tolerance [tol] and [R0^2 <= tol], the solve ends converged without
    any iteration and both histories stay empty. *)
Lemma initial_residual_short_circuit
  (ls : LinearSolver Vec Mat) (s : Solver Vec Mat) (p : Process World)
  (dt : float) (x v : VecId) :
  dynamic_cast_LinearSolver (l_linear_solver s) = Some ls ->
  (0 <? d_residual_tolerance_threshold s)%float = true ->
  (R_squared_norm (snd (solve_init ls s p dt x v))
     <=? d_residual_tolerance_threshold s)%float = true ->
  exists s' p' e,
    solve s p dt x v = Some (s', p', Some e)
    /\ d_converged s' = true
    /\ nb_iterations e = 0
    /\ p_squared_residuals s' = []
    /\ p_times s' = [].
Proof.
  intros Hcast Hpos Hle.
  destruct (solve_init_facts ls s p dt x v)
    as (_ & _ & _ & _ & _ & Hr & Ht & Hn & Hd & Hc).
  rewrite Hpos, Hle in Hc. simpl in Hc.
  assert (Hloop : forall fuel,
            newton_loop fuel (fst (solve_init ls s p dt x v))
                        (snd (solve_init ls s p dt x v))
            = Some (snd (solve_init ls s p dt x v))).
  { intros [|fuel]; simpl; rewrite Hc; reflexivity. }
  exists (fst (fst (solve_finish s p (fst (solve_init ls s p dt x v))
                      (snd (solve_init ls s p dt x v)) (snd (solve_init ls s p dt x v))))),
         (snd (fst (solve_finish s p (fst (solve_init ls s p dt x v))
                      (snd (solve_init ls s p dt x v)) (snd (solve_init ls s p dt x v))))),
         (mkExit true false (unsigned (0 - 1))).
  split.
  - unfold solve, solve_with.
    assert (Hv : has_valid_linear_solver s = true) by (apply has_valid_cast; eauto).
    rewrite Hv, Hcast. simpl negb. cbv iota.
    specialize (Hloop (Z.to_nat (d_newton_iterations s))).
    destruct (solve_init ls s p dt x v) as [o' st0']. simpl fst in *. simpl snd in *.
    rewrite Hloop. unfold solve_finish. rewrite Hc, Hn, Hd. reflexivity.
  - simpl. rewrite Hc, Hr, Ht. repeat split; reflexivity.
Qed.

(** The order of the two convergence tests: when the divergence test does
    not fire and the correction test holds, the iteration ends converged
    with the message of the correction test, whatever the residual test
    gives; the residual test decides only when the correction test does
    not hold. *)
Lemma correction_checked_before_residual
  (o : Options Vec Mat) (u : Update World Vec Mat) :
  divergence_test u = false ->
  (correction_test o u = true ->
   newton_checks o u =
     (with_flags (up_state u)
        (if print_log o
         then [info_converged_correction
                 (PrimFloat.sqrt (dx_squared_norm u / du_squared_norm u))
                 (correction_tolerance_threshold o)]
         else [])
        true (diverged (up_state u)),
      true))
  /\ (correction_test o u = false -> residual_test o u = true ->
      newton_checks o u =
        (with_flags (up_state u)
           (if print_log o
            then [info_converged_residual
                    (PrimFloat.sqrt
                       (R_squared_norm (up_state u) / first_squared_residual (up_state u)))
                    (residual_tolerance_threshold o)]
            else [])
           true (diverged (up_state u)),
         true))
  /\ (correction_test o u = false -> residual_test o u = false ->
      newton_checks o u = (clear_solution (up_state u), false)).
Proof.
  intros Hd. unfold newton_checks. rewrite Hd.
  repeat split; intros; repeat match goal with H : _ = _ |- _ => rewrite H end; reflexivity.
Qed.

End SolveClaims.

(* ================================================================== *)
(** * The solver on the scene with one degree of freedom               *)
(* ================================================================== *)

Section SpringRuns.
Import Spring.
Open Scope float_scope.

(** The spring under the load 1 with the default options: the first
    iteration reaches the equilibrium, the second one finds a zero
    increment and ends the solve through the correction test. *)
Example default_run :
  exists s' p' e,
    solve (SC := linear_spring 1) default_solver (fresh rest) 1 position velocity
    = Some (s', p', Some e)
    /\ d_converged s' = true
    /\ p_squared_initial_residual s' = 1
    /\ p_squared_residuals s' = [0; 0]
    /\ nb_iterations e = 2%Z
    /\ last (messages p') info_equilibrium = info_converged_correction 0 default_tolerance
    /\ world p' = mkDof 1 0 0 0 1.
Proof.
  do 3 eexists. split; [vm_compute; reflexivity|].
  repeat split; reflexivity.
Qed.

(** The spring without load is at equilibrium: no iteration is made. *)
Example equilibrium_run :
  exists s' p' e,
    solve (SC := linear_spring 0) default_solver (fresh rest) 1 position velocity
    = Some (s', p', Some e)
    /\ d_converged s' = true
    /\ p_squared_residuals s' = []
    /\ p_times s' = []
    /\ nb_iterations e = 0%Z
    /\ last (messages p') (msg_error "") = info_equilibrium.
Proof.
  do 3 eexists. split; [vm_compute; reflexivity|].
  repeat split; reflexivity.
Qed.

(** C1: the code compares the squared initial residual with the
    tolerance itself, not with its square.  A linear spring under the
    load 2 has R0^2 = 4; with the residual tolerance 3, R0^2 is below
    tol_r^2 = 9, and yet the solve enters the loop and records one
    iteration, because 4 <= 3 does not hold. *)
Theorem initial_residual_compared_with_unsquared_tolerance :
  let tol := d_residual_tolerance_threshold loose_solver in
  let R0 := R_squared_norm (snd (entry (linear_spring 2) division_solver loose_solver)) in
  (0 <? tol) = true
  /\ R0 = 4
  /\ (R0 <? tol * tol) = true
  /\ exists s' p' e,
       solve (SC := linear_spring 2) loose_solver (fresh rest) 1 position velocity
       = Some (s', p', Some e)
       /\ p_squared_initial_residual s' = 4
       /\ p_squared_residuals s' = [4]
       /\ List.length (p_times s') = 1%nat
       /\ nb_iterations e = 1%Z.
Proof.
  cbv zeta. split; [reflexivity|]. split; [reflexivity|]. split; [reflexivity|].
  do 3 eexists. split; [vm_compute; reflexivity|].
  repeat split; reflexivity.
Qed.

(** C2: the residual test of the loop divides by the first recorded
    residual, not by the initial one.  A linear spring under the load 1
    has R0^2 = 1 and, after the first iteration, R^2 = 0, which is below
    tol_r^2 * R0^2; with the correction test disabled the code compares
    0 with tol_r^2 * 0, goes on, and uses up its three iterations without
    converging. *)
Theorem residual_test_uses_first_recorded_residual :
  let o := fst (entry (linear_spring 1) division_solver residual_only_solver) in
  exists s' p' e,
    solve (SC := linear_spring 1) residual_only_solver (fresh rest) 1 position velocity
    = Some (s', p', Some e)
    /\ p_squared_initial_residual s' = 1
    /\ p_squared_residuals s' = [0; 0; 0]
    /\ (0 <? residual_tolerance_threshold o) = true
    /\ (hd 0 (p_squared_residuals s')
          <? squared_residual_threshold o * p_squared_initial_residual s') = true
    /\ d_converged s' = false
    /\ exit_diverged e = false
    /\ nb_iterations e = 3%Z.
Proof.
  cbv zeta. do 3 eexists. split; [vm_compute; reflexivity|].
  repeat split; reflexivity.
Qed.

(** C3 on the spring under a load of 2^-30 with the correction tolerance
    2: the squared total displacement is below EPSILON and the correction
    test would hold; the pass ends diverged, not converged. *)
Lemma divergence_checked_before_convergence_witness :
  let o := fst (entry (linear_spring tiny_load) division_solver lenient_solver) in
  let st := snd (entry (linear_spring tiny_load) division_solver lenient_solver) in
  correction_test o tiny_update = true
  /\ exists st',
       newton_loop (SC := linear_spring tiny_load) 3 o st = Some st'
       /\ diverged st' = true /\ converged st' = false.
Proof.
  cbv zeta. split; [reflexivity|].
  destruct (divergence_checked_before_convergence
              (SC := linear_spring tiny_load)
              (fst (entry (linear_spring tiny_load) division_solver lenient_solver))
              (snd (entry (linear_spring tiny_load) division_solver lenient_solver))
              tiny_update 2)
    as (_ & Hloop & Hd & Hc).
  - reflexivity.
  - reflexivity.
  - reflexivity.
  - right; right; reflexivity.
  - eexists. split; [exact Hloop|]. split; assumption.
Defined.

(** C4 on the spring under the load 1 with the linear solver that always
    fails: diverged in the first pass, nothing recorded, the scene as the
    first residual assembly left it. *)
Lemma linear_solve_failure_diverges_witness :
  let o := fst (entry (linear_spring 1) failing_solver stuck_solver) in
  let st := snd (entry (linear_spring 1) failing_solver stuck_solver) in
  exists st',
    newton_loop (SC := linear_spring 1) 3 o st = Some st'
    /\ diverged st' = true
    /\ st_world st' = mkDof 0 0 1 0 0
    /\ st_squared_residuals st' = []
    /\ st_times st' = [].
Proof.
  cbv zeta.
  destruct (linear_solve_failure_diverges
              (SC := linear_spring 1)
              (fst (entry (linear_spring 1) failing_solver stuck_solver))
              (snd (entry (linear_spring 1) failing_solver stuck_solver)) 2)
    as (st' & Hloop & Hd & _ & Hw & _ & _ & Hr & Ht).
  - reflexivity.
  - reflexivity.
  - reflexivity.
  - exists st'. split; [exact Hloop|]. split; [exact Hd|].
    split; [rewrite Hw; reflexivity|]. split; [rewrite Hr|rewrite Ht]; reflexivity.
Defined.

(** C5 on the spring under the load 1 with the default options. *)
Lemma telemetry_lengths_witness :
  exists s' p' e,
    solve (SC := linear_spring 1) default_solver (fresh rest) 1 position velocity
    = Some (s', p', Some e)
    /\ List.length (p_squared_residuals s') = List.length (p_times s')
    /\ Z.of_nat (List.length (p_squared_residuals s')) = nb_iterations e
    /\ (nb_iterations e <= 3)%Z.
Proof.
  destruct (telemetry_lengths (SC := linear_spring 1)
              default_solver (fresh rest) 1 position velocity)
    as (s' & p' & e & Hs & Hlen & Hn & _ & Hmax).
  - unfold well_formed; simpl; lia.
  - reflexivity.
  - exists s', p', e. repeat split; assumption.
Defined.

(** C6 on the spring under the load 1 with the correction test disabled:
    the solve ends in one of the three ways. *)
Lemma exactly_one_exit_condition_witness :
  exists s' p' e,
    solve (SC := linear_spring 1) residual_only_solver (fresh rest) 1 position velocity
    = Some (s', p', Some e)
    /\ ((exit_converged e = true /\ exit_diverged e = false)
        \/ (exit_converged e = false /\ exit_diverged e = true)
        \/ (exit_converged e = false /\ exit_diverged e = false
            /\ nb_iterations e = 3%Z)).
Proof.
  destruct (exactly_one_exit_condition (SC := linear_spring 1)
              residual_only_solver (fresh rest) 1 position velocity)
    as (s' & p' & e & Hs & _ & Hcases).
  - unfold well_formed; simpl; lia.
  - reflexivity.
  - exists s', p', e. split; [exact Hs|].
    destruct Hcases as [H|[H|(Hc & Hd & Hn & _)]]; auto.
Defined.

(** C7 does not hold when the linear solve fails: with
    newton_iterations = 1 and an initial residual that does not end the
    solve, the solver that always fails leaves both histories empty. *)
Lemma single_iteration_mode_counterexample :
  d_newton_iterations single_failing_solver = 1%Z
  /\ converged (snd (entry (linear_spring 1) failing_solver single_failing_solver)) = false
  /\ exists s' p' e,
       solve (SC := linear_spring 1) single_failing_solver (fresh rest) 1 position velocity
       = Some (s', p', Some e)
       /\ p_squared_residuals s' = []
       /\ p_times s' = []
       /\ nb_iterations e = 0%Z
       /\ exit_diverged e = true.
Proof.
  split; [reflexivity|]. split; [reflexivity|].
  do 3 eexists. split; [vm_compute; reflexivity|].
  repeat split; reflexivity.
Qed.

(** C7 on the spring under the load 1, solved by division. *)
Lemma single_iteration_mode_witness :
  exists s' p' e,
    solve (SC := linear_spring 1) single_solver (fresh rest) 1 position velocity
    = Some (s', p', Some e)
    /\ nb_iterations e = 1%Z
    /\ p_squared_residuals s' = [p_squared_initial_residual s']
    /\ List.length (p_times s') = 1%nat.
Proof.
  destruct (single_iteration_mode (SC := linear_spring 1)
              division_solver single_solver (fresh rest) 1 position velocity)
    as (s' & p' & e & Hs & Hn & Hr & Ht & _).
  - reflexivity.
  - reflexivity.
  - reflexivity.
  - reflexivity.
  - exists s', p', e. repeat split; assumption.
Defined.

(** C8 on a process at its start: a solver without link, then a solver
    linked to a foreign linear solver, then the first one again. *)
Lemma misconfigured_solve_is_noop_witness :
  exists p1,
    solve (SC := linear_spring 1) unlinked_solver (fresh rest) 1 position velocity
    = Some (unlinked_solver, p1, None)
    /\ world p1 = rest
    /\ messages p1 = no_linear_solver_errors
    /\ solve_all (SC := linear_spring 1)
         [(mislinked_solver, 1, position, velocity);
          (unlinked_solver, 1, position, velocity)] p1
       = Some ([mislinked_solver; unlinked_solver], p1).
Proof.
  destruct (misconfigured_solve_is_noop (SC := linear_spring 1)
              unlinked_solver (fresh rest) 1 position velocity
              [(mislinked_solver, 1, position, velocity);
               (unlinked_solver, 1, position, velocity)])
    as (p1 & Hs & Hw & _ & _ & Hm & Hall).
  - reflexivity.
  - repeat constructor.
  - exists p1. repeat split; assumption.
Defined.

End SpringRuns.

(* ================================================================== *)
(** * Properties of the rectangular hexahedron                         *)
(* ================================================================== *)

Section HexahedronClaims.
Import RectangularHexahedron.
Open Scope R_scope.

Lemma undo_scaling (c a h : R) : h <> 0 -> (c + a * (h / 2) - c) / (h / 2) = a.
Proof. intros H. field. exact H. Qed.

(** C9, in exact arithmetic: over the real numbers, where no operation
    rounds, if the rotation is orthogonal and the dimensions hx, hy, hz
    are not zero, then Tinv (T x) = x for every local position x. *)
Theorem Tinv_T_exact (h : Hexahedron R) (x : Vector3 R) :
  orthogonal h -> nonzero_dimensions h -> Tinv h (T h x) = x.
Proof.
  destruct h as [[cx cy cz] [hx hy hz] [[r00 r01 r02] [r10 r11 r12] [r20 r21 r22]]].
  destruct x as [x0 x1 x2].
  unfold orthogonal, nonzero_dimensions, Tinv, T, mat_mul, mat_vec, row_dot, transpose,
    cwise_mul, cwise_div, vec_add, vec_sub, vec_div_scalar, Identity; simpl.
  intros [= E00 E01 E02 E10 E11 E12 E20 E21 E22] (Hx & Hy & Hz).
  rewrite !undo_scaling by assumption.
  f_equal.
  - transitivity (x0 * (r00 * r00 + r10 * r10 + r20 * r20)
                  + x1 * (r00 * r01 + r10 * r11 + r20 * r21)
                  + x2 * (r00 * r02 + r10 * r12 + r20 * r22)); [ring|].
    rewrite E00, E01, E02. ring.
  - transitivity (x0 * (r01 * r00 + r11 * r10 + r21 * r20)
                  + x1 * (r01 * r01 + r11 * r11 + r21 * r21)
                  + x2 * (r01 * r02 + r11 * r12 + r21 * r22)); [ring|].
    rewrite E10, E11, E12. ring.
  - transitivity (x0 * (r02 * r00 + r12 * r10 + r22 * r20)
                  + x1 * (r02 * r01 + r12 * r11 + r22 * r21)
                  + x2 * (r02 * r02 + r12 * r12 + r22 * r22)); [ring|].
    rewrite E20, E21, E22. ring.
Qed.

(** C9, in exact arithmetic, on the hexahedron of size 2 x 4 x 6 centred at
    (5, -1, 2) and turned by a quarter of a turn about z: the local point
    (1, 2, 3) goes to (3, 1, 11) and comes back. *)
Lemma Tinv_T_exact_witness :
  T HexahedronInputs.turned_hexahedron (mkVector3 1 2 3) = mkVector3 3 1 11
  /\ Tinv HexahedronInputs.turned_hexahedron
          (T HexahedronInputs.turned_hexahedron (mkVector3 1 2 3))
     = mkVector3 1 2 3.
Proof.
  split.
  - unfold T, HexahedronInputs.turned_hexahedron, vec_add, cwise_mul, mat_vec, row_dot,
      vec_div_scalar; simpl. f_equal; field.
  - apply Tinv_T_exact.
    + unfold orthogonal, HexahedronInputs.turned_hexahedron, mat_mul, transpose, row_dot,
        Identity; simpl.
      repeat f_equal; ring.
    + unfold nonzero_dimensions; simpl. repeat split; lra.
Defined.

(** C9 does not hold in double precision: for the unrotated 2x2x2
    hexahedron centred at (1, 0, 0), T maps (0.1, 0, 0) to the double
    closest to 1.1, and Tinv maps that back to 0.10000000000000009, nine
    units in the last place away from 0.1. *)
Lemma Tinv_T_double_counterexample :
  orthogonal shifted_hexahedron
  /\ nonzero_dimensions shifted_hexahedron
  /\ T shifted_hexahedron tenth_x = mkVector3 0x1.199999999999ap+0%float 0%float 0%float
  /\ Tinv shifted_hexahedron (T shifted_hexahedron tenth_x)
     = mkVector3 0x1.99999999999a0p-4%float 0%float 0%float
  /\ Tinv shifted_hexahedron (T shifted_hexahedron tenth_x) <> tenth_x.
Proof.
  split; [vm_compute; reflexivity|]. split.
  - unfold nonzero_dimensions; simpl. repeat split; intro H; discriminate H.
  - split; [vm_compute; reflexivity|]. split; [vm_compute; reflexivity|].
    intro H. apply (f_equal vx) in H. vm_compute in H. discriminate H.
Qed.

End HexahedronClaims.

(* ================================================================== *)
(** * Properties of Grid::get                                          *)
(* ================================================================== *)

Section GridClaims.
Variable CellType : Type.
Variable cell_index : Grid.Grid CellType -> Grid.VecInt -> option nat.

(** C10: the const overload of [get] does not return.  Its body calls
    [get] on a const Grid, which is the const overload again: whatever
    the depth of calls allowed, no outcome is reached, whereas the
    non-const overload returns [m_cells[cell_index(grid_coordinates)]]
    at once. *)
Theorem const_get_never_returns
  (fuel : nat) (g : Grid.Grid CellType) (grid_coordinates : Grid.VecInt) :
  Grid.get cell_index fuel Grid.ConstGet g grid_coordinates = None
  /\ Grid.get cell_index (S fuel) Grid.NonConstGet g grid_coordinates
     = Some (Grid.cell_at cell_index g grid_coordinates).
Proof.
  split; [|reflexivity].
  induction fuel as [|fuel IH]; simpl; [reflexivity|exact IH].
Qed.

End GridClaims.

(* ================================================================== *)
(** * Properties of NewtonRaphsonSolver::init                          *)
(* ================================================================== *)

Section InitProperties.
Import SolverInit.
Context {World Vec Mat : Type} {SC : Scene World Vec Mat}.
Variable getPathName : SceneObject Vec Mat -> string.

Lemma classify_from (solvers sofa caribou : list (SceneObject Vec Mat)) :
  fold_left
    (fun (lists : list (SceneObject Vec Mat) * list (SceneObject Vec Mat)) solver =>
       match dynamic_cast_LinearSolver (Some solver) with
       | Some _ => (fst lists, snd lists ++ [solver])
       | None => (fst lists ++ [solver], snd lists)
       end)
    solvers (sofa, caribou)
  = (sofa ++ filter (fun o => negb (compatible o)) solvers,
     caribou ++ filter compatible solvers).
Proof.
  revert sofa caribou.
  induction solvers as [|o rest IH]; intros sofa caribou; simpl.
  - rewrite !app_nil_r. reflexivity.
  - destruct o as [ls|name]; simpl; rewrite IH, <- !app_assoc; reflexivity.
Qed.

(** The sorting loop keeps the order of the node in both lists. *)
Lemma classify_filter (solvers : list (SceneObject Vec Mat)) :
  classify solvers
  = (filter (fun o => negb (compatible o)) solvers, filter compatible solvers).
Proof. unfold classify. rewrite classify_from. reflexivity. Qed.

Lemma filter_none {A : Type} (f : A -> bool) (l : list A) :
  Forall (fun a => f a = false) l -> filter f l = [].
Proof.
  induction 1 as [|a l Ha _ IH]; simpl; [reflexivity|].
  rewrite Ha. exact IH.
Qed.

Lemma filter_all {A : Type} (f : A -> bool) (l : list A) :
  Forall (fun a => f a = false) l -> filter (fun a => negb (f a)) l = l.
Proof.
  induction 1 as [|a l Ha _ IH]; simpl; [reflexivity|].
  rewrite Ha. simpl. now rewrite IH.
Qed.

Lemma first_compatible (solvers : list (SceneObject Vec Mat)) :
  existsb compatible solvers = true ->
  exists before first after,
    solvers = before ++ first :: after
    /\ Forall (fun o => compatible o = false) before
    /\ compatible first = true.
Proof.
  induction solvers as [|o rest IH]; simpl; [discriminate|].
  destruct (compatible o) eqn:Ho; simpl.
  - intros _. exists [], o, rest. auto.
  - intros H. destruct (IH H) as (before & first & after & -> & Hb & Hf).
    exists (o :: before), first, after. auto.
Qed.

Lemma has_valid_set_linear_solver (s : Solver Vec Mat) (o : SceneObject Vec Mat) :
  has_valid_linear_solver (set_linear_solver s o) = compatible o.
Proof. reflexivity. Qed.

Lemma init_links_first
  (s : Solver Vec Mat) (before after : list (SceneObject Vec Mat))
  (first : SceneObject Vec Mat) :
  has_valid_linear_solver s = false ->
  Forall (fun o => compatible o = false) before ->
  compatible first = true ->
  init getPathName (before ++ first :: after) s
  = (set_linear_solver s first,
     if existsb compatible after
      then [warning_multiple_linear_solvers (getPathName first)]
      else if f_printLog s
           then [info_linear_solver_found (getPathName first)]
           else [])
  /\ has_valid_linear_solver (fst (init getPathName (before ++ first :: after) s)) = true.
Proof.
  intros Hs Hb Hf.
  assert (E : init getPathName (before ++ first :: after) s
              = (set_linear_solver s first,
                 if existsb compatible after
                  then [warning_multiple_linear_solvers (getPathName first)]
                  else if f_printLog s
                       then [info_linear_solver_found (getPathName first)]
                       else [])).
  { unfold init. rewrite Hs, classify_filter. simpl negb. cbv iota.
    rewrite !filter_app. simpl. rewrite Hf. simpl.
    rewrite (filter_none _ _ Hb). simpl.
    destruct (filter compatible after) as [|o rest] eqn:Ef.
    - assert (Hn : existsb compatible after = false).
      { destruct (existsb compatible after) eqn:Ex; [|reflexivity].
        apply existsb_exists in Ex. destruct Ex as (o & Hin & Ho).
        assert (Hin' : In o (filter compatible after)) by (apply filter_In; auto).
        rewrite Ef in Hin'. destruct Hin'. }
      rewrite Hn. reflexivity.
    - assert (Hy : existsb compatible after = true).
      { apply existsb_exists. exists o.
        assert (Hin : In o (filter compatible after)) by (rewrite Ef; left; reflexivity).
        apply filter_In in Hin. exact Hin. }
      rewrite Hy. reflexivity. }
  split; [exact E|]. rewrite E. simpl. rewrite has_valid_set_linear_solver. exact Hf.
Qed.

(** X1: init links the first compatible linear solver of the node: when the
    solver has no valid link and the node holds a linear solver that
    implements the Caribou interface, init sets the link to the first such
    solver in the order of the node, skipping the incompatible ones before
    it, and changes nothing else of the solver.  It writes a warning when
    there are more compatible solvers; when that solver is the only one,
    it writes an information message under printLog and nothing
    otherwise. *)
Theorem init_takes_first_compatible
  (s : Solver Vec Mat) (before after : list (SceneObject Vec Mat))
  (first : SceneObject Vec Mat) :
  has_valid_linear_solver s = false ->
  Forall (fun o => compatible o = false) before ->
  compatible first = true ->
  init getPathName (before ++ first :: after) s
  = (set_linear_solver s first,
     if existsb compatible after
      then [warning_multiple_linear_solvers (getPathName first)]
      else if f_printLog s
           then [info_linear_solver_found (getPathName first)]
           else [])
  /\ has_valid_linear_solver (fst (init getPathName (before ++ first :: after) s)) = true.
Proof. exact (init_links_first s before after first). Qed.

(** X2: Without a compatible linear solver in the node, init leaves the solver
    as it is and writes one error, which tells whether the node has no
    linear solver at all or only incompatible ones (and how many); a solve
    that follows changes neither the solver nor the scene. *)
Theorem init_without_compatible_solver
  (s : Solver Vec Mat) (solvers : list (SceneObject Vec Mat))
  (p : Process World) (dt : float) (x v : VecId) :
  has_valid_linear_solver s = false ->
  Forall (fun o => compatible o = false) solvers ->
  init getPathName solvers s
  = (s, [match solvers with
         | [] => error_no_linear_solver
         | _ :: _ => error_no_compatible_linear_solver (List.length solvers)
         end])
  /\ exists p',
       solve (fst (init getPathName solvers s)) p dt x v = Some (s, p', None)
       /\ world p' = world p.
Proof.
  intros Hs Hall.
  assert (E : init getPathName solvers s
              = (s, [match solvers with
                     | [] => error_no_linear_solver
                     | _ :: _ => error_no_compatible_linear_solver (List.length solvers)
                     end])).
  { unfold init. rewrite Hs, classify_filter. simpl negb. cbv iota.
    rewrite (filter_none _ _ Hall), (filter_all _ _ Hall).
    destruct solvers; reflexivity. }
  split; [exact E|]. rewrite E. simpl fst.
  rewrite (invalid_solve s p dt x v Hs).
  eexists. split; [reflexivity|].
  destruct (error_message_already_printed p); reflexivity.
Qed.

Lemma init_valid_spec (s : Solver Vec Mat) (solvers : list (SceneObject Vec Mat)) :
  has_valid_linear_solver (fst (init getPathName solvers s)) = true
  <-> has_valid_linear_solver s = true \/ existsb compatible solvers = true.
Proof.
  destruct (has_valid_linear_solver s) eqn:Hs.
  - unfold init. rewrite Hs. simpl. rewrite Hs. intuition.
  - destruct (existsb compatible solvers) eqn:Hex.
    + destruct (first_compatible _ Hex) as (before & first & after & -> & Hb & Hf).
      destruct (init_links_first s before after first Hs Hb Hf) as [_ Hv].
      rewrite Hv. intuition.
    + assert (Hall : Forall (fun o => compatible o = false) solvers).
      { apply Forall_forall. intros o Hin.
        destruct (compatible o) eqn:Ho; [|reflexivity].
        assert (Hy : existsb compatible solvers = true)
          by (apply existsb_exists; eauto).
        congruence. }
      unfold init. rewrite Hs, classify_filter. simpl negb. cbv iota.
      rewrite (filter_none _ _ Hall), (filter_all _ _ Hall).
      destruct solvers; simpl; rewrite Hs; split; intuition discriminate.
Qed.

(** X3: After init the solver has a valid link exactly when it had one before
    or the node holds a compatible linear solver. *)
Theorem init_valid_iff (s : Solver Vec Mat) (solvers : list (SceneObject Vec Mat)) :
  has_valid_linear_solver (fst (init getPathName solvers s)) = true
  <-> has_valid_linear_solver s = true \/ existsb compatible solvers = true.
Proof. exact (init_valid_spec s solvers). Qed.

End InitProperties.

(* ================================================================== *)
(** * Not-a-number and disabled tolerances                             *)
(* ================================================================== *)

Section FloatFacts.
Import SolverOutputs.
Open Scope float_scope.

Lemma SFeqb_refl (f : SpecFloat.spec_float) :
  f <> SpecFloat.S754_nan -> SpecFloat.SFeqb f f = true.
Proof.
  destruct f as [s|s| |s m e]; intros H; unfold SpecFloat.SFeqb; simpl.
  - reflexivity.
  - destruct s; reflexivity.
  - contradiction H; reflexivity.
  - destruct s; rewrite Z.compare_refl, Pos.compare_cont_refl; reflexivity.
Qed.

Lemma is_nan_spec (x : float) : is_nan x = true -> Prim2SF x = SpecFloat.S754_nan.
Proof.
  unfold is_nan. rewrite FloatAxioms.eqb_spec. intros H.
  destruct (Prim2SF x) as [s|s| |s m e] eqn:E; try reflexivity;
    rewrite SFeqb_refl in H by discriminate; discriminate.
Qed.

(** No comparison holds of a NaN. *)
Lemma nan_leb (x y : float) : is_nan x = true -> (x <=? y) = false.
Proof.
  intros H. rewrite FloatAxioms.leb_spec, (is_nan_spec _ H). reflexivity.
Qed.

Lemma nan_ltb_r (x y : float) : is_nan y = true -> (x <? y) = false.
Proof.
  intros H. rewrite FloatAxioms.ltb_spec, (is_nan_spec _ H).
  unfold SpecFloat.SFltb. destruct (Prim2SF x); reflexivity.
Qed.

Lemma nan_ltb_l (x y : float) : is_nan x = true -> (x <? y) = false.
Proof.
  intros H. rewrite FloatAxioms.ltb_spec, (is_nan_spec _ H). reflexivity.
Qed.

(** There is one NaN. *)
Lemma is_nan_eq (x : float) : is_nan x = true -> x = nan.
Proof.
  intros H. rewrite <- (SF2Prim_Prim2SF x), (is_nan_spec x H). reflexivity.
Qed.

(** The test [tolerance > 0] fails exactly for the tolerances that are at
    most zero and for NaN. *)
Lemma disabled_spec (tolerance : float) :
  disabled tolerance <-> (tolerance <=? 0) = true \/ is_nan tolerance = true.
Proof.
  unfold disabled, is_nan. rewrite FloatAxioms.ltb_spec, FloatAxioms.leb_spec, FloatAxioms.eqb_spec.
  change (Prim2SF 0) with (SpecFloat.S754_zero false).
  destruct (Prim2SF tolerance) as [s|s| |s m e];
    unfold SpecFloat.SFltb, SpecFloat.SFleb, SpecFloat.SFeqb; simpl.
  - intuition.
  - destruct s; simpl; intuition discriminate.
  - intuition.
  - rewrite Z.compare_refl, Pos.compare_cont_refl.
    destruct s; simpl; intuition discriminate.
Qed.

End FloatFacts.

(* ================================================================== *)
(** * More properties of NewtonRaphsonSolver::solve                    *)
(* ================================================================== *)

Section SolveExtras.
Import SolverOutputs.
Context {World Vec Mat : Type} {SC : Scene World Vec Mat}.
Open Scope Z_scope.

(** [solve] on a solver with a compatible linear solver, from the state
    its loop ends in. *)
Lemma solve_of_loop
  (ls : LinearSolver Vec Mat) (s : Solver Vec Mat) (p : Process World)
  (dt : float) (x v : VecId) (st : LoopState World Vec Mat) :
  dynamic_cast_LinearSolver (l_linear_solver s) = Some ls ->
  newton_loop (Z.to_nat (d_newton_iterations s))
              (fst (solve_init ls s p dt x v)) (snd (solve_init ls s p dt x v)) = Some st ->
  solve s p dt x v
  = Some (solve_finish s p (fst (solve_init ls s p dt x v))
                       (snd (solve_init ls s p dt x v)) st).
Proof.
  intros Hcast Hloop. unfold solve, solve_with.
  assert (Hv : has_valid_linear_solver s = true) by (apply has_valid_cast; eauto).
  rewrite Hv, Hcast. simpl negb. cbv iota.
  destruct (solve_init ls s p dt x v) as [o st0]. simpl fst in *. simpl snd in *.
  rewrite Hloop. reflexivity.
Qed.

(** What every pass keeps, the loop keeps. *)
Lemma newton_loop_invariant (P : LoopState World Vec Mat -> Prop) (o : Options Vec Mat) :
  (forall st st' b, P st -> newton_iteration o st = (st', b) -> P st') ->
  forall fuel st st', P st -> newton_loop fuel o st = Some st' -> P st'.
Proof.
  intros Hstep. induction fuel as [|fuel IH]; intros st st' HP; simpl.
  - destruct (negb (converged st) && (n_it st <? newton_iterations o));
      [discriminate|]. intros [= <-]. exact HP.
  - destruct (negb (converged st) && (n_it st <? newton_iterations o)).
    + destruct (newton_iteration o st) as [st1 b] eqn:E.
      pose proof (Hstep _ _ _ HP E) as HP1.
      destruct b; [intros [= <-]; exact HP1|apply IH; exact HP1].
    + intros [= <-]. exact HP.
Qed.

Lemma newton_update_messages (o : Options Vec Mat) (st : LoopState World Vec Mat)
  (u : Update World Vec Mat) :
  print_log o = false ->
  newton_update o st = inr u ->
  st_messages (up_state u) = st_messages st.
Proof.
  intros Hlog. unfold newton_update, log. rewrite Hlog.
  destruct (assemble_system_matrix _ _ _) as [w1 A1].
  destruct (linear_solve _ _ _ _) as [ok DX1].
  destruct ok; simpl; [|discriminate].
  destruct (1 <? newton_iterations o).
  - destruct (assemble_rhs_vector _ _ _ _) as [w F']. intros [= <-]. reflexivity.
  - intros [= <-]. reflexivity.
Qed.

Lemma newton_iteration_silent (o : Options Vec Mat) (st st' : LoopState World Vec Mat)
  (b : bool) :
  print_log o = false ->
  newton_iteration o st = (st', b) ->
  st_messages st' = st_messages st.
Proof.
  intros Hlog. unfold newton_iteration.
  destruct (newton_update o st) as [d|u] eqn:E.
  - pose proof (newton_update_inl _ _ _ E) as Hf.
    rewrite (newton_update_failed _ _ Hf) in E. injection E as <-.
    intros [= <- <-]. reflexivity.
  - rewrite <- (newton_update_messages _ _ _ Hlog E).
    unfold newton_checks. rewrite Hlog.
    destruct (divergence_test u);
      [|destruct (correction_test o u); [|destruct (residual_test o u)]];
      intros [= <- <-]; simpl; rewrite ?app_nil_r; reflexivity.
Qed.

(** X8: With printLog off, a solve with a valid linear solver writes nothing:
    the messages of the process are the ones it started with, however the
    solve ends. *)
Theorem silent_without_printLog
  (s : Solver Vec Mat) (p : Process World) (dt : float) (x v : VecId) :
  well_formed s ->
  has_valid_linear_solver s = true ->
  f_printLog s = false ->
  exists s' p' e,
    solve s p dt x v = Some (s', p', Some e)
    /\ messages p' = messages p.
Proof.
  intros Hwf Hv Hlog. apply has_valid_cast in Hv. destruct Hv as [ls Hcast].
  destruct (solve_valid ls s p dt x v Hwf Hcast) as (st & Hloop & Hs & _).
  destruct (solve_init_facts ls s p dt x v) as (_ & _ & HP & _).
  rewrite Hlog in HP.
  assert (H0 : st_messages (snd (solve_init ls s p dt x v)) = messages p).
  { unfold solve_init, log. simpl. rewrite Hlog.
    destruct (assemble_rhs_vector _ _ _ _) as [w F]. simpl.
    destruct (_ && _); reflexivity. }
  assert (Hm : st_messages st = messages p).
  { refine (newton_loop_invariant (fun st => st_messages st = messages p) _ _ _ _ _ H0 Hloop).
    intros st1 st2 b H1 E. rewrite (newton_iteration_silent _ _ _ _ HP E). exact H1. }
  do 3 eexists. split; [exact Hs|].
  simpl. unfold log. rewrite HP, Hm. destruct (_ && _); reflexivity.
Qed.

Lemma newton_iteration_unconverged (o : Options Vec Mat) (st st' : LoopState World Vec Mat)
  (b : bool) :
  disabled (correction_tolerance_threshold o) ->
  disabled (residual_tolerance_threshold o) ->
  converged st = false ->
  newton_iteration o st = (st', b) ->
  converged st' = false.
Proof.
  intros Hc Hr Hconv. unfold newton_iteration.
  destruct (newton_update o st) as [d|u] eqn:E.
  - pose proof (newton_update_inl _ _ _ E) as Hf.
    rewrite (newton_update_failed _ _ Hf) in E. injection E as <-.
    intros [= <- <-]. exact Hconv.
  - destruct (newton_update_inr _ _ _ E) as (_ & _ & _ & _ & Uc & _).
    intros C.
    destruct (newton_checks_flags _ _ _ _ C)
      as [(_ & _ & -> & _)|[(_ & Ht & _)|(_ & _ & _ & _ & -> & _)]];
      try (rewrite Uc; exact Hconv).
    unfold correction_test, residual_test in Ht.
    unfold disabled in Hc, Hr. rewrite Hc, Hr in Ht. discriminate.
Qed.

(** X9: With both tolerances disabled (each negative, zero or NaN) no solve
    converges: it returns with converged = false, either diverged or with
    all newton_iterations iterations made, and gives has_converged = 0 to
    the timer. *)
Theorem disabled_criteria_never_converge
  (s : Solver Vec Mat) (p : Process World) (dt : float) (x v : VecId) :
  well_formed s ->
  has_valid_linear_solver s = true ->
  disabled (d_correction_tolerance_threshold s) ->
  disabled (d_residual_tolerance_threshold s) ->
  exists s' p' e,
    solve s p dt x v = Some (s', p', Some e)
    /\ d_converged s' = false
    /\ (exit_diverged e = true \/ nb_iterations e = d_newton_iterations s)
    /\ In ("has_converged"%string, 0) (timer_values p').
Proof.
  intros Hwf Hv Hc Hr. apply has_valid_cast in Hv. destruct Hv as [ls Hcast].
  destruct (solve_valid ls s p dt x v Hwf Hcast) as (st & Hloop & Hs & Hcnt & Hend).
  destruct (solve_init_facts ls s p dt x v)
    as (HN & _ & _ & Htr & Htc & _ & _ & _ & _ & H0).
  unfold disabled in Hr. rewrite Hr in H0. simpl in H0.
  assert (Hconv : converged st = false).
  { refine (newton_loop_invariant (fun st => converged st = false) _ _ _ _ _ H0 Hloop).
    intros st1 st2 b H1 E.
    apply (newton_iteration_unconverged _ _ _ _ ltac:(rewrite Htc; exact Hc)
             ltac:(rewrite Htr; exact Hr) H1 E). }
  do 3 eexists. split; [exact Hs|]. simpl. rewrite Hconv.
  split; [reflexivity|]. split.
  - destruct Hend as [[Ht _]|[[_ Hd]|(_ & _ & Hn)]]; [congruence|left; exact Hd|right].
    unfold nb_iterations; simpl.
    destruct Hcnt as (_ & _ & Hlo & Hhi). rewrite HN in Hhi, Hn.
    rewrite nb_iterations_counter by (destruct Hwf; lia). exact Hn.
  - apply in_or_app. right. left. reflexivity.
Qed.

(** X10: A solve does not read the outputs of the solve before it: with a valid
    linear solver, the solver that still holds a converged flag, histories,
    an initial residual and buffers gives the same result as the solver
    with these outputs reset. *)
Theorem solve_ignores_earlier_outputs
  (s : Solver Vec Mat) (p : Process World) (dt : float) (x v : VecId) :
  has_valid_linear_solver s = true ->
  solve s p dt x v = solve (reset_outputs s) p dt x v.
Proof.
  intros Hv. apply has_valid_cast in Hv. destruct Hv as [ls Hcast].
  unfold solve, solve_with.
  assert (Hv : has_valid_linear_solver s = true) by (apply has_valid_cast; eauto).
  assert (Hv' : has_valid_linear_solver (reset_outputs s) = true) by exact Hv.
  rewrite Hv, Hv'. simpl negb. cbv iota.
  change (l_linear_solver (reset_outputs s)) with (l_linear_solver s).
  change (d_newton_iterations (reset_outputs s)) with (d_newton_iterations s).
  rewrite Hcast.
  change (solve_init ls (reset_outputs s) p dt x v) with (solve_init ls s p dt x v).
  destruct (solve_init ls s p dt x v) as [o st0].
  destruct (newton_loop _ o st0); reflexivity.
Qed.

(** X11: newton_iterations = 0: the loop is not entered.  The solve makes and
    records no iteration and cannot diverge, the scene is the one the
    initial residual assembly left, and converged is the result of the test
    of the initial residual.  The counter wraps to 2^32 - 1 at [n_it--] and
    so does newton_iterations - 1: when the solve did not converge, the
    message on the exhausted budget is written under printLog. *)
Theorem zero_iterations_budget
  (ls : LinearSolver Vec Mat) (s : Solver Vec Mat) (p : Process World)
  (dt : float) (x v : VecId) :
  dynamic_cast_LinearSolver (l_linear_solver s) = Some ls ->
  d_newton_iterations s = 0 ->
  exists s' p' e,
    solve s p dt x v = Some (s', p', Some e)
    /\ nb_iterations e = 0
    /\ exit_n_it e = 2 ^ 32 - 1
    /\ exit_diverged e = false
    /\ p_squared_residuals s' = []
    /\ p_times s' = []
    /\ world p' = st_world (snd (solve_init ls s p dt x v))
    /\ d_converged s' = converged (snd (solve_init ls s p dt x v))
    /\ (d_converged s' = false -> f_printLog s = true ->
        exists before, messages p' = before ++ [info_max_iterations 0]).
Proof.
  intros Hcast H0.
  destruct (solve_init_facts ls s p dt x v)
    as (HN & _ & HP & _ & _ & Hr & Ht & Hn & Hd & _).
  assert (Hloop : newton_loop (Z.to_nat (d_newton_iterations s))
                    (fst (solve_init ls s p dt x v)) (snd (solve_init ls s p dt x v))
                  = Some (snd (solve_init ls s p dt x v))).
  { rewrite H0. simpl. rewrite Hn, HN, H0. simpl. rewrite andb_false_r. reflexivity. }
  do 3 eexists. split; [exact (solve_of_loop ls s p dt x v _ Hcast Hloop)|].
  simpl. unfold nb_iterations; simpl. rewrite Hn, Hd, Hr, Ht, HN, H0.
  repeat split; try reflexivity.
  intros Hc Hlog. rewrite Hc. simpl. unfold log. rewrite HP, Hlog. eauto.
Qed.

(** X12: The error is written once per run of misconfigured solves, and again
    after a recovery: after any solve with a valid linear solver, the next
    solve without one writes its two error lines, whatever was written
    before. *)
Theorem error_again_after_valid_solve
  (good bad : Solver Vec Mat) (p : Process World) (dt : float) (x v : VecId) :
  well_formed good ->
  has_valid_linear_solver good = true ->
  has_valid_linear_solver bad = false ->
  exists good' p1 e p2,
    solve good p dt x v = Some (good', p1, Some e)
    /\ solve bad p1 dt x v = Some (bad, p2, None)
    /\ messages p2 = messages p1 ++ no_linear_solver_errors
    /\ world p2 = world p1.
Proof.
  intros Hwf Hgood Hbad.
  destruct (valid_solve_resets_flag good p dt x v Hwf Hgood) as (good' & p1 & e & Hs & Hflag).
  exists good', p1, e. eexists. split; [exact Hs|]. split.
  - rewrite (invalid_solve bad p1 dt x v Hbad), Hflag. reflexivity.
  - split; reflexivity.
Qed.

End SolveExtras.

Section SolveSoundness.
Import SolverOutputs SolverInit SolverObservation.
Context {World Vec Mat : Type} {SC : Scene World Vec Mat}.
Open Scope Z_scope.

(** The loop works on the total displacement of the solver object. *)
Lemma solve_init_U_id (ls : LinearSolver Vec Mat) (s : Solver Vec Mat)
  (p : Process World) (dt : float) (x v : VecId) :
  U_id (fst (solve_init ls s p dt x v)) = p_U_id s.
Proof.
  unfold solve_init. destruct (assemble_rhs_vector _ _ _ _) as [w F]. reflexivity.
Qed.

(** The two squared norms of a pass are the ones the scene holds after it. *)
Lemma newton_update_norms (o : Options Vec Mat) (st : LoopState World Vec Mat)
  (u : Update World Vec Mat) :
  newton_update o st = inr u ->
  dx_squared_norm u = v_dot dx dx (st_world (up_state u))
  /\ du_squared_norm u = v_dot (U_id o) (U_id o) (st_world (up_state u)).
Proof.
  unfold newton_update.
  destruct (assemble_system_matrix _ _ _) as [w1 A1].
  destruct (linear_solve _ _ _ _) as [ok DX1].
  destruct ok; simpl; [|discriminate].
  destruct (1 <? newton_iterations o).
  - destruct (assemble_rhs_vector _ _ _ _) as [w F']. intros [= <-]. split; reflexivity.
  - intros [= <-]. split; reflexivity.
Qed.

(** A pass that leaves the loop through [break] leaves the scene as the
    update made it. *)
Lemma newton_checks_break (o : Options Vec Mat) (u : Update World Vec Mat)
  (st' : LoopState World Vec Mat) :
  newton_checks o u = (st', true) -> st_world st' = st_world (up_state u).
Proof.
  unfold newton_checks.
  destruct (divergence_test u); [|destruct (correction_test o u); [|destruct (residual_test o u)]];
    intros [= <-]; reflexivity.
Qed.

(** How the loop can end converged: it started converged, or its last
    pass passed the divergence test and then the correction test or the
    residual test, and the histories, the counter and the scene are the
    ones of that pass. *)
Lemma newton_loop_converged (o : Options Vec Mat) (fuel : nat) :
  forall st st' : LoopState World Vec Mat,
    newton_loop fuel o st = Some st' ->
    converged st' = true ->
    (converged st = true /\ st' = st)
    \/ exists st1 u,
         newton_update o st1 = inr u
         /\ divergence_test u = false
         /\ (correction_test o u || residual_test o u) = true
         /\ st_squared_residuals st' = st_squared_residuals (up_state u)
         /\ n_it st' = n_it (up_state u)
         /\ st_world st' = st_world (up_state u).
Proof.
  induction fuel as [|fuel IH]; intros st st'; simpl.
  - destruct (converged st) eqn:Hc; simpl.
    + intros [= <-] _. left. auto.
    + destruct (n_it st <? newton_iterations o); [discriminate|].
      intros [= <-] H. congruence.
  - destruct (converged st) eqn:Hc; simpl.
    + intros [= <-] _. left. auto.
    + destruct (n_it st <? newton_iterations o); [|intros [= <-] H; congruence].
      unfold newton_iteration.
      destruct (newton_update o st) as [d|u] eqn:E.
      * pose proof (newton_update_inl _ _ _ E) as Hf.
        rewrite (newton_update_failed _ _ Hf) in E. injection E as <-.
        intros [= <-]. simpl. congruence.
      * destruct (newton_update_inr _ _ _ E) as (_ & _ & _ & _ & Uc & _).
        destruct (newton_checks o u) as [st1 b] eqn:C.
        destruct (newton_checks_frame _ _ _ _ C) as (Fr & _ & Fn & _).
        destruct (newton_checks_flags _ _ _ _ C)
          as [(_ & -> & Hst & _)|[(Hd & Ht & -> & _)|(_ & _ & _ & -> & Hst & _)]].
        -- intros [= <-] H. congruence.
        -- intros [= <-] _. right. exists st, u.
           pose proof (newton_checks_break _ _ _ C). auto 10.
        -- intros L H. destruct (IH _ _ L H) as [[H1 _]|Hex]; [congruence|].
           right. exact Hex.
Qed.

(** The first entry of a history that is not empty. *)
Lemma hd_last_entry (l : list float) (a d : float) : hd a (l ++ [a]) = hd d (l ++ [a]).
Proof. destruct l; reflexivity. Qed.

(** X13: A squared initial residual that is NaN never passes the initial
    test, whatever the options: converged is false at the top of the loop,
    and a solve that reports converged = true has made at least one
    iteration.  In single-iteration mode it makes the solve diverge: with
    newton_iterations = 1 and a linear solve that succeeds, the one
    iteration is recorded with the NaN as its squared residual, and the
    solve ends with diverged set and converged = false. *)
Theorem nan_initial_residual_diverges
  (ls : LinearSolver Vec Mat) (s : Solver Vec Mat) (p : Process World)
  (dt : float) (x v : VecId) :
  dynamic_cast_LinearSolver (l_linear_solver s) = Some ls ->
  is_nan (R_squared_norm (snd (solve_init ls s p dt x v))) = true ->
  converged (snd (solve_init ls s p dt x v)) = false
  /\ (well_formed s ->
      exists s' p' e,
        solve s p dt x v = Some (s', p', Some e)
        /\ is_nan (p_squared_initial_residual s') = true
        /\ (d_converged s' = true ->
            1 <= nb_iterations e /\ p_squared_residuals s' <> []))
  /\ (d_newton_iterations s = 1 ->
      fst (solved (fst (solve_init ls s p dt x v)) (snd (solve_init ls s p dt x v))) = true ->
      exists s' p' e,
        solve s p dt x v = Some (s', p', Some e)
        /\ d_converged s' = false
        /\ exit_diverged e = true
        /\ nb_iterations e = 1
        /\ p_squared_residuals s' = [p_squared_initial_residual s']
        /\ is_nan (p_squared_initial_residual s') = true).
Proof.
  intros Hcast Hnan.
  destruct (solve_init_facts ls s p dt x v)
    as (HN & _ & _ & _ & _ & Hr & Ht & Hn & _ & Hc).
  rewrite (nan_leb _ _ Hnan), andb_false_r in Hc.
  split; [exact Hc|]. split.
  - intros Hwf.
    destruct (solve_valid ls s p dt x v Hwf Hcast) as (st & Hloop & Hs & Hcnt & _).
    do 3 eexists. split; [exact Hs|]. simpl. split; [exact Hnan|].
    intros Hconv.
    destruct (newton_loop_converged _ _ _ _ Hloop Hconv)
      as [[H0 _]|(st1 & u & E & _ & _ & Hres & _)]; [congruence|].
    destruct (newton_update_inr _ _ _ E) as (_ & _ & Ur & _).
    destruct Hcnt as (_ & Hlen & Hlo & Hhi). rewrite HN in Hhi.
    assert (Hne : st_squared_residuals st <> []).
    { rewrite Hres, Ur. intros C. apply app_eq_nil in C. destruct C; discriminate. }
    split; [|exact Hne].
    unfold nb_iterations; simpl.
    rewrite nb_iterations_counter by (destruct Hwf; lia).
    rewrite <- Hlen. destruct (st_squared_residuals st); [congruence|simpl; lia].
  - intros H1 Hsolved.
    set (o := fst (solve_init ls s p dt x v)) in *.
    set (st0 := snd (solve_init ls s p dt x v)) in *.
    rewrite H1 in HN.
    destruct (newton_update o st0) as [d|u] eqn:E.
    { apply newton_update_inl in E. congruence. }
    destruct (newton_update_inr _ _ _ E) as (_ & _ & Ur & Un & Uc & _ & Hone).
    destruct Hone as (UR & _); [lia|].
    assert (Hdiv : divergence_test u = true).
    { unfold divergence_test. rewrite UR, Hnan. reflexivity. }
    assert (Hloop : newton_loop (Z.to_nat (d_newton_iterations s)) o st0
                    = Some (fst (newton_checks o u))).
    { rewrite H1. change (Z.to_nat 1) with 1%nat. simpl.
      rewrite Hc, Hn, HN. simpl.
      unfold newton_iteration. rewrite E.
      unfold newton_checks. rewrite Hdiv. reflexivity. }
    do 3 eexists. split; [exact (solve_of_loop ls s p dt x v _ Hcast Hloop)|].
    unfold newton_checks. rewrite Hdiv. simpl.
    unfold nb_iterations; simpl. rewrite Uc, Hc, Ur, Un, Hr, Hn, UR. simpl.
    repeat split; try reflexivity. exact Hnan.
Qed.

(** X14: converged is only ever set by a test that holds.  After a solve that
    reports converged = true, either no iteration was made and the initial
    residual passed its test (positive tolerance, and R0^2 at most the
    tolerance), or at least one iteration was recorded and the values the
    last iteration left pass the tests of the loop: with the last squared
    residual of the history, the first one, and the squared norms of the
    increment and of the total displacement held by the scene the solve
    returns, the divergence test fails (no NaN, total displacement not
    below EPSILON) and the correction test or the residual test holds. *)
Theorem converged_only_by_test
  (ls : LinearSolver Vec Mat) (s : Solver Vec Mat) (p : Process World)
  (dt : float) (x v : VecId) :
  well_formed s ->
  dynamic_cast_LinearSolver (l_linear_solver s) = Some ls ->
  exists s' p' e,
    solve s p dt x v = Some (s', p', Some e)
    /\ (d_converged s' = true ->
        (nb_iterations e = 0
         /\ p_squared_residuals s' = []
         /\ (0 <? d_residual_tolerance_threshold s)%float = true
         /\ (p_squared_initial_residual s' <=? d_residual_tolerance_threshold s)%float = true)
        \/ (1 <= nb_iterations e
            /\ Z.of_nat (List.length (p_squared_residuals s')) = nb_iterations e
            /\ last_divergence_test s' (world p') = false
            /\ (last_correction_test s' (world p') || last_residual_test s') = true)).
Proof.
  intros Hwf Hcast.
  destruct (solve_valid ls s p dt x v Hwf Hcast) as (st & Hloop & Hs & Hcnt & _).
  destruct (solve_init_facts ls s p dt x v)
    as (HN & _ & _ & Htr & Htc & Hr & _ & Hn & _ & Hc).
  pose proof (solve_init_U_id ls s p dt x v) as HU.
  do 3 eexists. split; [exact Hs|]. simpl. intros Hconv.
  assert (Hnb : nb_iterations (mkExit (converged st) (diverged st) (unsigned (n_it st - 1)))
                = n_it st).
  { unfold nb_iterations; simpl. destruct Hcnt as (_ & _ & Hlo & Hhi). rewrite HN in Hhi.
    apply nb_iterations_counter. destruct Hwf; lia. }
  rewrite Hnb.
  destruct (newton_loop_converged _ _ _ _ Hloop Hconv)
    as [[H0 ->]|(st1 & u & E & Hd & Ht & Hres & Hnit & Hw)].
  - left. rewrite Hc in H0. apply andb_true_iff in H0. destruct H0 as [Hpos Hle].
    rewrite Hn, Hr. auto.
  - right.
    destruct (newton_update_inr _ _ _ E) as (_ & _ & Ur & _).
    destruct (newton_update_norms _ _ _ E) as (Hdx & Hdu).
    destruct Hcnt as (_ & Hlen & Hlo & Hhi).
    assert (Hne : st_squared_residuals st <> []).
    { rewrite Hres, Ur. intros C. apply app_eq_nil in C. destruct C; discriminate. }
    split; [rewrite <- Hlen; destruct (st_squared_residuals st); [congruence|simpl; lia]|].
    split; [exact Hlen|].
    unfold last_divergence_test, last_correction_test, last_residual_test,
      increment_squared_norm, total_squared_norm. simpl.
    rewrite Hres, Hw, Ur, last_last, <- HU, <- Hdx, <- Hdu, <- Htr, <- Htc.
    rewrite <- (hd_last_entry _ (R_squared_norm (up_state u)) 0%float), <- Ur.
    split; [exact Hd|exact Ht].
Qed.
Variable getPathName : SceneObject Vec Mat -> string.

(** X5: init and solve together: when the node holds a compatible linear
    solver, a solve after init is not skipped, whether the solver had a
    valid link before init or not. *)
Theorem init_then_solve_runs
  (s : Solver Vec Mat) (solvers : list (SceneObject Vec Mat))
  (p : Process World) (dt : float) (x v : VecId) :
  well_formed s ->
  existsb compatible solvers = true ->
  exists s' p' e,
    solve (fst (init getPathName solvers s)) p dt x v = Some (s', p', Some e)
    /\ error_message_already_printed p' = false.
Proof.
  intros Hwf Hex.
  assert (Hv : has_valid_linear_solver (fst (init getPathName solvers s)) = true).
  { apply init_valid_spec. right. exact Hex. }
  apply valid_solve_resets_flag; [|exact Hv].
  unfold init. destruct (has_valid_linear_solver s); simpl; [exact Hwf|].
  destruct (classify solvers) as [sofa caribou].
  destruct caribou as [|c [|c' rest]]; [destruct sofa| |]; exact Hwf.
Qed.

Lemma init_valid_noop (s : Solver Vec Mat) (solvers : list (SceneObject Vec Mat)) :
  has_valid_linear_solver s = true -> init getPathName solvers s = (s, []).
Proof. intros H. unfold init. rewrite H. reflexivity. Qed.

(** X4: init twice is init once: a second init leaves the solver as the first
    one left it, and once a solver is linked it writes nothing. *)
Theorem init_idempotent (s : Solver Vec Mat) (solvers : list (SceneObject Vec Mat)) :
  fst (init getPathName solvers (fst (init getPathName solvers s)))
  = fst (init getPathName solvers s)
  /\ (has_valid_linear_solver (fst (init getPathName solvers s)) = true ->
      snd (init getPathName solvers (fst (init getPathName solvers s))) = []).
Proof.
  destruct (has_valid_linear_solver (fst (init getPathName solvers s))) eqn:Hv.
  - rewrite (init_valid_noop _ solvers Hv). simpl. auto.
  - split; [|discriminate].
    assert (Hs : has_valid_linear_solver s = false).
    { destruct (has_valid_linear_solver s) eqn:Hs; [|reflexivity].
      assert (H : has_valid_linear_solver (fst (init getPathName solvers s)) = true)
        by (apply init_valid_spec; left; exact Hs).
      congruence. }
    assert (Hall : Forall (fun o => compatible o = false) solvers).
    { apply Forall_forall. intros o Hin.
      destruct (compatible o) eqn:Ho; [|reflexivity].
      assert (H : has_valid_linear_solver (fst (init getPathName solvers s)) = true).
      { apply init_valid_spec. right. apply existsb_exists. eauto. }
      congruence. }
    assert (E : fst (init getPathName solvers s) = s).
    { unfold init. rewrite Hs, classify_filter. simpl negb. cbv iota.
      rewrite (filter_none _ _ Hall), (filter_all _ _ Hall).
      destruct solvers; reflexivity. }
    rewrite E. exact E.
Qed.

End SolveSoundness.

Section ResidualHistory.
Context {World Vec Mat : Type} {SC : Scene World Vec Mat}.
Open Scope Z_scope.

Lemma Forall_removelast {A : Type} (P : A -> Prop) (l : list A) :
  Forall P l -> Forall P (removelast l).
Proof.
  induction 1 as [|a l Ha Hl IH]; simpl; [constructor|].
  destruct l; [constructor|]. constructor; assumption.
Qed.

Lemma newton_loop_nan (o : Options Vec Mat) (fuel : nat) :
  forall st st' : LoopState World Vec Mat,
    Forall (fun r => is_nan r = false) (st_squared_residuals st) ->
    diverged st = false ->
    newton_loop fuel o st = Some st' ->
    Forall (fun r => is_nan r = false) (removelast (st_squared_residuals st'))
    /\ (diverged st' = false ->
        Forall (fun r => is_nan r = false) (st_squared_residuals st')).
Proof.
  induction fuel as [|fuel IH]; intros st st' Hall Hd; simpl.
  - destruct (negb (converged st) && (n_it st <? newton_iterations o)); [discriminate|].
    intros [= <-]. split; [apply Forall_removelast|intros _]; exact Hall.
  - destruct (negb (converged st) && (n_it st <? newton_iterations o));
      [|intros [= <-]; split; [apply Forall_removelast|intros _]; exact Hall].
    unfold newton_iteration.
    destruct (newton_update o st) as [d|u] eqn:E.
    + pose proof (newton_update_inl _ _ _ E) as Hf.
      rewrite (newton_update_failed _ _ Hf) in E. injection E as <-.
      intros [= <-]. simpl. split; [apply Forall_removelast; exact Hall|discriminate].
    + destruct (newton_update_inr _ _ _ E) as (_ & _ & Ur & _ & _ & Ud & _).
      destruct (newton_checks o u) as [st1 b] eqn:C.
      destruct (newton_checks_frame _ _ _ _ C) as (Fr & _).
      assert (Hgood : divergence_test u = false ->
                      Forall (fun r => is_nan r = false) (st_squared_residuals st1)).
      { intros Ht. rewrite Fr, Ur. apply Forall_app. split; [exact Hall|].
        constructor; [|constructor].
        unfold divergence_test in Ht.
        apply orb_false_iff in Ht. destruct Ht as [Ht _].
        apply orb_false_iff in Ht. destruct Ht as [Ht _]. exact Ht. }
      destruct (newton_checks_flags _ _ _ _ C)
        as [(_ & -> & _ & Hd1)|[(Ht & _ & -> & _)|(Ht & _ & _ & -> & _ & Hd1)]].
      * intros [= <-]. split; [|congruence].
        rewrite Fr, Ur, removelast_last. exact Hall.
      * intros [= <-]. split; [apply Forall_removelast|intros _]; exact (Hgood Ht).
      * intros L. apply (IH _ _ (Hgood Ht)); [congruence|exact L].
Qed.

(** X15: A squared residual that is NaN ends the solve in the iteration that
    records it: in the history of squared residuals only the last entry
    can be NaN, and none is when the solve did not diverge. *)
Theorem nan_residual_only_last
  (s : Solver Vec Mat) (p : Process World) (dt : float) (x v : VecId) :
  well_formed s ->
  has_valid_linear_solver s = true ->
  exists s' p' e,
    solve s p dt x v = Some (s', p', Some e)
    /\ Forall (fun r => is_nan r = false) (removelast (p_squared_residuals s'))
    /\ (exit_diverged e = false ->
        Forall (fun r => is_nan r = false) (p_squared_residuals s')).
Proof.
  intros Hwf Hv. apply has_valid_cast in Hv. destruct Hv as [ls Hcast].
  destruct (solve_valid ls s p dt x v Hwf Hcast) as (st & Hloop & Hs & _).
  destruct (solve_init_facts ls s p dt x v)
    as (_ & _ & _ & _ & _ & Hr & _ & _ & Hd & _).
  do 3 eexists. split; [exact Hs|]. simpl.
  apply (newton_loop_nan _ _ _ _ ltac:(rewrite Hr; constructor) Hd Hloop).
Qed.

End ResidualHistory.

(* ================================================================== *)
(** * More properties of the rectangular hexahedron                    *)
(* ================================================================== *)

Section HexahedronExtras.
Import RectangularHexahedron HexahedronQueries.
Open Scope R_scope.

Lemma redo_scaling (c y h : R) : h <> 0 -> c + (y - c) / (h / 2) * (h / 2) = y.
Proof. intros H. field. exact H. Qed.

(** X16: T after Tinv, in exact arithmetic: over the real numbers, if the rows
    of the rotation are orthonormal and the dimensions hx, hy, hz are not
    zero, then T (Tinv y) = y for every world position y. *)
Theorem T_after_Tinv_exact (h : Hexahedron R) (y : Vector3 R) :
  orthogonal_rows h -> nonzero_dimensions h -> T h (Tinv h y) = y.
Proof.
  destruct h as [[cx cy cz] [hx hy hz] [[r00 r01 r02] [r10 r11 r12] [r20 r21 r22]]].
  destruct y as [y0 y1 y2].
  unfold orthogonal_rows, nonzero_dimensions, Tinv, T, mat_mul, mat_vec, row_dot, transpose,
    cwise_mul, cwise_div, vec_add, vec_sub, vec_div_scalar, Identity; simpl.
  intros [= E00 E01 E02 E10 E11 E12 E20 E21 E22] (Hx & Hy & Hz).
  set (z0 := (y0 - cx) / (hx / 2)). set (z1 := (y1 - cy) / (hy / 2)).
  set (z2 := (y2 - cz) / (hz / 2)).
  f_equal.
  - transitivity (cx + (z0 * (r00 * r00 + r01 * r01 + r02 * r02)
                        + z1 * (r00 * r10 + r01 * r11 + r02 * r12)
                        + z2 * (r00 * r20 + r01 * r21 + r02 * r22)) * (hx / 2)); [ring|].
    rewrite E00, E01, E02. unfold z0. rewrite <- (redo_scaling cx y0 hx Hx) at 2. ring.
  - transitivity (cy + (z0 * (r10 * r00 + r11 * r01 + r12 * r02)
                        + z1 * (r10 * r10 + r11 * r11 + r12 * r12)
                        + z2 * (r10 * r20 + r11 * r21 + r12 * r22)) * (hy / 2)); [ring|].
    rewrite E10, E11, E12. unfold z1. rewrite <- (redo_scaling cy y1 hy Hy) at 2. ring.
  - transitivity (cz + (z0 * (r20 * r00 + r21 * r01 + r22 * r02)
                        + z1 * (r20 * r10 + r21 * r11 + r22 * r12)
                        + z2 * (r20 * r20 + r21 * r21 + r22 * r22)) * (hz / 2)); [ring|].
    rewrite E20, E21, E22. unfold z2. rewrite <- (redo_scaling cz y2 hz Hz) at 2. ring.
Qed.

Lemma ltb_false (a b : R) : ~ a < b -> s_ltb a b = false.
Proof. intros H. simpl. destruct (Rlt_dec a b); [contradiction|reflexivity]. Qed.
Lemma ltb_true (a b : R) : a < b -> s_ltb a b = true.
Proof. intros H. simpl. destruct (Rlt_dec a b); [reflexivity|contradiction]. Qed.

Lemma edge_sign_cases (e : R) :
  (e < 0 /\ edge_sign e = -1) \/ (0 <= e /\ edge_sign e = 1).
Proof.
  unfold edge_sign. simpl. destruct (Rlt_dec e 0); [left|right]; split; try reflexivity; lra.
Qed.

Lemma face_accepts (eps p q e : R) :
  0 <= eps -> -1/2 <= p <= 1/2 -> -1/2 <= q <= 1/2 ->
  s_ltb (s_add s_half eps) (s_mul p (edge_sign e))
  || s_ltb (s_mul q (edge_sign e)) (s_sub (s_opp s_half) eps) = false.
Proof.
  intros He Hp Hq.
  destruct (edge_sign_cases e) as [[_ ->]|[_ ->]];
    rewrite !ltb_false; try reflexivity; simpl; lra.
Qed.

Lemma rhomb_accepts (eps p q e1 e2 : R) :
  0 <= eps -> -1/2 <= p <= 1/2 -> -1/2 <= q <= 1/2 ->
  s_ltb eps
    (s_sub (s_mul (s_sub (s_mul e2 p) (s_mul e1 q)) (s_sub (s_mul e2 p) (s_mul e1 q)))
           (s_mul (s_mul s_half (s_add (s_mul e2 (edge_sign e1)) (s_mul e1 (edge_sign e2))))
                  (s_mul s_half (s_add (s_mul e2 (edge_sign e1)) (s_mul e1 (edge_sign e2))))))
  = false.
Proof.
  intros He Hp Hq. apply ltb_false. simpl.
  destruct (edge_sign_cases e1) as [[H1 ->]|[H1 ->]];
    destruct (edge_sign_cases e2) as [[H2 ->]|[H2 ->]].
  - assert (0 <= (-e2) * (1/2 - p)) by (apply Rmult_le_pos; lra).
    assert (0 <= (-e2) * (1/2 + p)) by (apply Rmult_le_pos; lra).
    assert (0 <= (-e1) * (1/2 - q)) by (apply Rmult_le_pos; lra).
    assert (0 <= (-e1) * (1/2 + q)) by (apply Rmult_le_pos; lra).
    nra.
  - assert (0 <= (e2) * (1/2 - p)) by (apply Rmult_le_pos; lra).
    assert (0 <= (e2) * (1/2 + p)) by (apply Rmult_le_pos; lra).
    assert (0 <= (-e1) * (1/2 - q)) by (apply Rmult_le_pos; lra).
    assert (0 <= (-e1) * (1/2 + q)) by (apply Rmult_le_pos; lra).
    nra.
  - assert (0 <= (-e2) * (1/2 - p)) by (apply Rmult_le_pos; lra).
    assert (0 <= (-e2) * (1/2 + p)) by (apply Rmult_le_pos; lra).
    assert (0 <= (e1) * (1/2 - q)) by (apply Rmult_le_pos; lra).
    assert (0 <= (e1) * (1/2 + q)) by (apply Rmult_le_pos; lra).
    nra.
  - assert (0 <= (e2) * (1/2 - p)) by (apply Rmult_le_pos; lra).
    assert (0 <= (e2) * (1/2 + p)) by (apply Rmult_le_pos; lra).
    assert (0 <= (e1) * (1/2 - q)) by (apply Rmult_le_pos; lra).
    assert (0 <= (e1) * (1/2 + q)) by (apply Rmult_le_pos; lra).
    nra.
Qed.

(** X17: In exact arithmetic and with EPSILON >= 0, a segment whose two nodes
    lie in the cube [-1, 1]^3 of the local coordinates intersects it. *)
Theorem segment_inside_intersects (eps : R) (a b : Vector3 R) :
  0 <= eps -> inside a -> inside b ->
  intersects_local eps (mkSegment a b) = true.
Proof.
  intros He (Ha0 & Ha1 & Ha2) (Hb0 & Hb1 & Hb2).
  destruct a as [a0 a1 a2], b as [b0 b1 b2]. simpl in *.
  cbv - [s_ltb s_add s_sub s_mul s_div s_opp s_half s_two s_zero s_one edge_sign orb].
  rewrite !face_accepts by (try assumption; simpl; lra).
  rewrite !rhomb_accepts by (try assumption; simpl; lra). reflexivity.
Qed.

(** X18: In exact arithmetic, a segment whose two nodes lie beyond the same
    face of the cube by more than 2 EPSILON (both coordinates i above
    1 + 2 EPSILON, or both below -(1 + 2 EPSILON)) does not intersect it. *)
Theorem segment_beyond_face_misses (eps : R) (a b : Vector3 R) (i : nat) :
  (i < 3)%nat ->
  (1 + 2 * eps < coord i a /\ 1 + 2 * eps < coord i b)
  \/ (coord i a < - (1 + 2 * eps) /\ coord i b < - (1 + 2 * eps)) ->
  intersects_local eps (mkSegment a b) = false.
Proof.
  intros Hi H.
  destruct a as [a0 a1 a2], b as [b0 b1 b2].
  assert (Hface : face_rejects eps (vec_div_scalar (mkVector3 a0 a1 a2) s_two)
                    (vec_div_scalar (mkVector3 b0 b1 b2) s_two)
                    (vec_sub (vec_div_scalar (mkVector3 b0 b1 b2) s_two)
                             (vec_div_scalar (mkVector3 a0 a1 a2) s_two)) i = true).
  { unfold face_rejects.
    destruct i as [|[|[|i]]]; [| | |lia]; cbn [coord vec_div_scalar vec_sub vx vy vz] in *;
      destruct H as [[Ha Hb]|[Ha Hb]];
      match goal with |- context [edge_sign ?e] =>
        destruct (edge_sign_cases e) as [[_ ->]|[_ ->]] end;
      apply orb_true_iff;
      first [ left; apply ltb_true; simpl; lra | right; apply ltb_true; simpl; lra ]. }
  unfold intersects_local. cbn [node0 node1 existsb].
  destruct i as [|[|[|i]]]; [| | |lia]; rewrite Hface, ?orb_true_r; reflexivity.
Qed.

Lemma quadrature_fold (k detJ : R) (others : list (Vector3 R * R)) (acc w : R) :
  acc = k * w * detJ ->
  fold_left (fun result pw => s_add result (s_mul (s_mul k (snd pw)) detJ)) others acc
  = k * fold_left (fun a pw => a + snd pw) others w * detJ.
Proof.
  revert acc w. induction others as [|[q wq] rest IH]; intros acc w Hacc; simpl.
  - exact Hacc.
  - apply IH. rewrite Hacc. ring.
Qed.

(** X19: In exact arithmetic, the quadrature of the constant k is k times the
    sum of the weights times hx hy hz / 8, the determinant of the jacobian:
    with weights that sum to 8, the quadrature of 1 is the volume
    hx hy hz. *)
Theorem quadrature_of_constant (first : Vector3 R * R) (others : list (Vector3 R * R))
  (h : Hexahedron R) (k : R) :
  gauss_quadrature first others h (fun _ _ => k)
  = k * total_weight first others * (vx (p_H h) * vy (p_H h) * vz (p_H h) / 8).
Proof.
  unfold gauss_quadrature, total_weight.
  assert (Hdet : determinant (jacobian h) = vx (p_H h) * vy (p_H h) * vz (p_H h) / 8).
  { unfold determinant, det3_helper, jacobian; simpl. field. }
  rewrite Hdet. apply quadrature_fold. reflexivity.
Qed.

(** The intersection test in double precision, with EPSILON = 2^-52: a
    diagonal of the cube, a segment above the cube, and a segment that
    passes the three face tests but misses the cube near an edge. *)
Example intersects_local_double :
  intersects_local 0x1p-52%float
    (mkSegment (mkVector3 (-1)%float (-1)%float (-1)%float)
               (mkVector3 1%float 1%float 1%float)) = true
  /\ intersects_local 0x1p-52%float
       (mkSegment (mkVector3 0%float 0%float 2%float)
                  (mkVector3 1%float 0%float 3%float)) = false
  /\ intersects_local 0x1p-52%float
       (mkSegment (mkVector3 3%float 0%float 0%float)
                  (mkVector3 0%float 3%float 0%float)) = false.
Proof. repeat split; vm_compute; reflexivity. Qed.

End HexahedronExtras.

Section HexahedronNaN.
Import RectangularHexahedron HexahedronQueries.
Open Scope float_scope.

(** X20: In double precision, no test of [intersects_local] can reject a segment
    whose coordinates are all NaN, since every comparison with a NaN is
    false: such a segment is reported as intersecting the cube, whatever
    EPSILON is. *)
Theorem nan_segment_intersects (eps : float) (a b : Vector3 float) :
  all_nan a -> all_nan b -> intersects_local eps (mkSegment a b) = true.
Proof.
  destruct a as [a0 a1 a2], b as [b0 b1 b2].
  intros (Ha0 & Ha1 & Ha2) (Hb0 & Hb1 & Hb2). simpl in *.
  apply is_nan_eq in Ha0, Ha1, Ha2, Hb0, Hb1, Hb2. subst.
  cbv - [PrimFloat.ltb PrimFloat.add PrimFloat.sub orb].
  rewrite !(nan_ltb_r _ nan) by reflexivity.
  rewrite !(nan_ltb_l nan) by reflexivity.
  reflexivity.
Qed.

Lemma nan_segment_intersects_witness :
  intersects_local 0x1p-52 (mkSegment (mkVector3 nan nan nan) (mkVector3 nan nan nan)) = true.
Proof.
  apply nan_segment_intersects; repeat split; reflexivity.
Defined.

End HexahedronNaN.

(* ================================================================== *)
(** * The further properties on concrete inputs                        *)
(* ================================================================== *)

Section ExtraRuns.
Import Spring SpringRuns2 SolverInit SolverOutputs SolverObservation RectangularHexahedron HexahedronQueries.
Open Scope float_scope.

(** init on a node with one SOFA solver and two Caribou solvers links the
    first Caribou solver and warns; on a node with one SOFA solver and one
    Caribou solver, a solver with printLog off is linked without a
    message. *)
Lemma init_takes_first_compatible_witness :
  init path_of node_solvers unlinked_solver
  = (set_linear_solver unlinked_solver (CaribouLinearSolver division_solver),
     [warning_multiple_linear_solvers "/root/LinearSolver"])
  /\ init path_of [SofaLinearSolver "/root/CGLinearSolver";
                   CaribouLinearSolver failing_solver] quiet_unlinked_solver
     = (set_linear_solver quiet_unlinked_solver (CaribouLinearSolver failing_solver), [])
  /\ init path_of [CaribouLinearSolver failing_solver] unlinked_solver
     = (set_linear_solver unlinked_solver (CaribouLinearSolver failing_solver),
        [info_linear_solver_found "/root/LinearSolver"]).
Proof.
  split; [|split].
  - destruct (init_takes_first_compatible path_of unlinked_solver
                [SofaLinearSolver "/root/CGLinearSolver"]
                [CaribouLinearSolver failing_solver]
                (CaribouLinearSolver division_solver)) as [E _].
    + reflexivity.
    + repeat constructor.
    + reflexivity.
    + exact E.
  - destruct (init_takes_first_compatible path_of quiet_unlinked_solver
                [SofaLinearSolver "/root/CGLinearSolver"] []
                (CaribouLinearSolver failing_solver)) as [E _].
    + reflexivity.
    + repeat constructor.
    + reflexivity.
    + exact E.
  - destruct (init_takes_first_compatible path_of unlinked_solver
                [] [] (CaribouLinearSolver failing_solver)) as [E _].
    + reflexivity.
    + constructor.
    + reflexivity.
    + exact E.
Defined.

(** init on a node with a SOFA solver only. *)
Lemma init_without_compatible_solver_witness :
  init path_of [SofaLinearSolver "/root/CGLinearSolver"] unlinked_solver
  = (unlinked_solver, [error_no_compatible_linear_solver 1])
  /\ exists p',
       solve (SC := linear_spring 1)
             (fst (init path_of [SofaLinearSolver "/root/CGLinearSolver"] unlinked_solver))
             (fresh rest) 1 position velocity
       = Some (unlinked_solver, p', None)
       /\ world p' = rest.
Proof.
  apply (init_without_compatible_solver (SC := linear_spring 1) path_of unlinked_solver
           [SofaLinearSolver "/root/CGLinearSolver"] (fresh rest) 1 position velocity).
  - reflexivity.
  - repeat constructor.
Defined.

Lemma init_then_solve_runs_witness :
  exists s' p' e,
    solve (SC := linear_spring 1) (fst (init path_of node_solvers unlinked_solver))
          (fresh rest) 1 position velocity
    = Some (s', p', Some e)
    /\ error_message_already_printed p' = false.
Proof.
  apply (init_then_solve_runs (SC := linear_spring 1) path_of unlinked_solver node_solvers
           (fresh rest) 1 position velocity).
  - unfold well_formed; simpl; lia.
  - reflexivity.
Defined.

Lemma silent_without_printLog_witness :
  exists s' p' e,
    solve (SC := linear_spring 1) quiet_solver (fresh rest) 1 position velocity
    = Some (s', p', Some e)
    /\ messages p' = [].
Proof.
  apply (silent_without_printLog (SC := linear_spring 1) quiet_solver (fresh rest)
           1 position velocity).
  - unfold well_formed; simpl; lia.
  - reflexivity.
  - reflexivity.
Defined.

Lemma disabled_criteria_never_converge_witness :
  exists s' p' e,
    solve (SC := linear_spring 1) blind_solver (fresh rest) 1 position velocity
    = Some (s', p', Some e)
    /\ d_converged s' = false
    /\ (exit_diverged e = true \/ nb_iterations e = 2%Z)
    /\ In ("has_converged"%string, 0%Z) (timer_values p').
Proof.
  apply (disabled_criteria_never_converge (SC := linear_spring 1) blind_solver (fresh rest)
           1 position velocity).
  - unfold well_formed; simpl; lia.
  - reflexivity.
  - reflexivity.
  - reflexivity.
Defined.

Lemma solve_ignores_earlier_outputs_witness :
  solve (SC := linear_spring 1) used_solver (fresh rest) 1 position velocity
  = solve (SC := linear_spring 1) (reset_outputs used_solver) (fresh rest) 1 position velocity.
Proof.
  apply (solve_ignores_earlier_outputs (SC := linear_spring 1)). reflexivity.
Defined.

Lemma zero_iterations_budget_witness :
  exists s' p' e,
    solve (SC := linear_spring 1) idle_solver (fresh rest) 1 position velocity
    = Some (s', p', Some e)
    /\ nb_iterations e = 0%Z
    /\ exit_diverged e = false
    /\ p_squared_residuals s' = [].
Proof.
  destruct (zero_iterations_budget (SC := linear_spring 1) division_solver idle_solver
              (fresh rest) 1 position velocity)
    as (s' & p' & e & Hs & Hn & _ & Hd & Hr & _).
  - reflexivity.
  - reflexivity.
  - exists s', p', e. auto.
Defined.

Lemma error_again_after_valid_solve_witness :
  exists good' p1 e p2,
    solve (SC := linear_spring 1) default_solver (fresh rest) 1 position velocity
    = Some (good', p1, Some e)
    /\ solve (SC := linear_spring 1) mislinked_solver p1 1 position velocity
       = Some (mislinked_solver, p2, None)
    /\ messages p2 = messages p1 ++ no_linear_solver_errors
    /\ world p2 = world p1.
Proof.
  apply (error_again_after_valid_solve (SC := linear_spring 1) default_solver mislinked_solver
           (fresh rest) 1 position velocity).
  - unfold well_formed; simpl; lia.
  - reflexivity.
  - reflexivity.
Defined.

(** The spring under a load that is NaN: with the default options, whose
    residual test is on, and in single-iteration mode. *)
Lemma nan_initial_residual_diverges_witness :
  converged (snd (entry (linear_spring nan_load) division_solver default_solver)) = false
  /\ (exists s' p' e,
        solve (SC := linear_spring nan_load) default_solver (fresh rest) 1 position velocity
        = Some (s', p', Some e)
        /\ is_nan (p_squared_initial_residual s') = true
        /\ d_converged s' = false)
  /\ exists s' p' e,
       solve (SC := linear_spring nan_load) single_solver (fresh rest) 1 position velocity
       = Some (s', p', Some e)
       /\ d_converged s' = false
       /\ exit_diverged e = true
       /\ nb_iterations e = 1%Z
       /\ p_squared_residuals s' = [p_squared_initial_residual s'].
Proof.
  split; [|split].
  - apply (nan_initial_residual_diverges (SC := linear_spring nan_load) division_solver
             default_solver (fresh rest) 1 position velocity); reflexivity.
  - destruct (nan_initial_residual_diverges (SC := linear_spring nan_load) division_solver
                default_solver (fresh rest) 1 position velocity)
      as (_ & H & _); [reflexivity|reflexivity|].
    destruct H as (s' & p' & e & Hs & Hn & _); [unfold well_formed; simpl; lia|].
    exists s', p', e. split; [exact Hs|]. split; [exact Hn|].
    vm_compute in Hs. injection Hs as <- _ _. reflexivity.
  - destruct (nan_initial_residual_diverges (SC := linear_spring nan_load) division_solver
                single_solver (fresh rest) 1 position velocity)
      as (_ & _ & H); [reflexivity|reflexivity|].
    destruct H as (s' & p' & e & Hs & Hc & Hd & Hn & Hr & _); [reflexivity|reflexivity|].
    exists s', p', e. auto.
Defined.

(** The spring under the load 1 converges at its second iteration through
    the correction test; the spring without load through the initial
    residual. *)
Lemma converged_only_by_test_witness :
  (exists s' p' e,
     solve (SC := linear_spring 1) default_solver (fresh rest) 1 position velocity
     = Some (s', p', Some e)
     /\ d_converged s' = true
     /\ nb_iterations e = 2%Z
     /\ p_squared_residuals s' = [0; 0]
     /\ world p' = mkDof 1 0 0 0 1
     /\ last_divergence_test (SC := linear_spring 1) s' (world p') = false
     /\ (last_correction_test (SC := linear_spring 1) s' (world p')
         || last_residual_test s') = true)
  /\ exists s' p' e,
       solve (SC := linear_spring 0) default_solver (fresh rest) 1 position velocity
       = Some (s', p', Some e)
       /\ d_converged s' = true
       /\ nb_iterations e = 0%Z
       /\ (p_squared_initial_residual s' <=? default_tolerance) = true.
Proof.
  split.
  - destruct (converged_only_by_test (SC := linear_spring 1) division_solver default_solver
                (fresh rest) 1 position velocity)
      as (s' & p' & e & Hs & H).
    + unfold well_formed; simpl; lia.
    + reflexivity.
    + assert (Hc : d_converged s' = true /\ nb_iterations e = 2%Z
                   /\ p_squared_residuals s' = [0; 0] /\ world p' = mkDof 1 0 0 0 1).
      { pose proof Hs as Hs'. vm_compute in Hs'. injection Hs' as <- <- <-.
        repeat split; reflexivity. }
      destruct Hc as (Hc & Hn & Hr & Hw).
      destruct (H Hc) as [(H0 & _)|(_ & _ & Hd & Ht)]; [rewrite Hn in H0; discriminate|].
      exists s', p', e. auto 10.
  - destruct (converged_only_by_test (SC := linear_spring 0) division_solver default_solver
                (fresh rest) 1 position velocity)
      as (s' & p' & e & Hs & H).
    + unfold well_formed; simpl; lia.
    + reflexivity.
    + assert (Hc : d_converged s' = true /\ nb_iterations e = 0%Z).
      { pose proof Hs as Hs'. vm_compute in Hs'. injection Hs' as <- <- <-.
        split; reflexivity. }
      destruct Hc as (Hc & Hn).
      destruct (H Hc) as [(_ & _ & _ & Hle)|(H1 & _)]; [|rewrite Hn in H1; lia].
      exists s', p', e. auto.
Defined.

(** The spring without load: the initial residual is 0. *)
Lemma initial_residual_short_circuit_witness :
  exists s' p' e,
    solve (SC := linear_spring 0) default_solver (fresh rest) 1 position velocity
    = Some (s', p', Some e)
    /\ d_converged s' = true
    /\ nb_iterations e = 0%Z
    /\ p_squared_residuals s' = []
    /\ p_times s' = [].
Proof.
  apply (initial_residual_short_circuit (SC := linear_spring 0) division_solver default_solver
           (fresh rest) 1 position velocity).
  - reflexivity.
  - reflexivity.
  - reflexivity.
Defined.

Lemma always_failing_linear_solver_witness :
  exists s' p' e,
    solve (SC := linear_spring 1) stuck_solver (fresh rest) 1 position velocity
    = Some (s', p', Some e)
    /\ exit_diverged e = true
    /\ d_converged s' = false
    /\ nb_iterations e = 0%Z
    /\ p_squared_residuals s' = []
    /\ p_times s' = []
    /\ world p' = mkDof 0 0 1 0 0.
Proof.
  destruct (always_failing_linear_solver (SC := linear_spring 1) failing_solver stuck_solver
              (fresh rest) 1 position velocity)
    as (s' & p' & e & Hs & Hd & Hc & Hn & Hr & Ht & Hw).
  - reflexivity.
  - reflexivity.
  - reflexivity.
  - reflexivity.
  - exists s', p', e. rewrite Hw. repeat split; auto.
Defined.

Lemma nan_residual_only_last_witness :
  exists s' p' e,
    solve (SC := linear_spring nan_load) default_solver (fresh rest) 1 position velocity
    = Some (s', p', Some e)
    /\ Forall (fun r => is_nan r = false) (removelast (p_squared_residuals s')).
Proof.
  destruct (nan_residual_only_last (SC := linear_spring nan_load) default_solver
              (fresh rest) 1 position velocity)
    as (s' & p' & e & Hs & Hall & _).
  - unfold well_formed; simpl; lia.
  - reflexivity.
  - exists s', p', e. auto.
Defined.

End ExtraRuns.

Section ExtraRunsReal.
Import RectangularHexahedron HexahedronQueries.
Open Scope R_scope.

(** X16 on the hexahedron of size 2 x 4 x 6 centred at (5, -1, 2) and turned
    by a quarter of a turn about z: the world point (3, 1, 11) goes to the
    local point (1, 2, 3) and comes back. *)
Lemma T_after_Tinv_exact_witness :
  Tinv HexahedronInputs.turned_hexahedron (mkVector3 3 1 11) = mkVector3 1 2 3
  /\ T HexahedronInputs.turned_hexahedron
       (Tinv HexahedronInputs.turned_hexahedron (mkVector3 3 1 11))
     = mkVector3 3 1 11.
Proof.
  split.
  - unfold Tinv, HexahedronInputs.turned_hexahedron, vec_sub, cwise_div, mat_vec, row_dot,
      transpose, vec_div_scalar; simpl. f_equal; field.
  - apply T_after_Tinv_exact.
    + unfold orthogonal_rows, HexahedronInputs.turned_hexahedron, mat_mul, transpose,
        row_dot, Identity; simpl.
      repeat f_equal; ring.
    + unfold nonzero_dimensions; simpl. repeat split; lra.
Defined.

Lemma segment_inside_intersects_witness :
  intersects_local 0
    (mkSegment (mkVector3 (-1) 0 (1 / 2)) (mkVector3 1 1 0)) = true.
Proof.
  apply segment_inside_intersects.
  - lra.
  - unfold inside; simpl; lra.
  - unfold inside; simpl; lra.
Defined.

Lemma segment_beyond_face_misses_witness :
  intersects_local 0
    (mkSegment (mkVector3 0 0 2) (mkVector3 1 0 3)) = false.
Proof.
  apply (segment_beyond_face_misses 0 _ _ 2).
  - lia.
  - left. simpl. lra.
Defined.

End ExtraRunsReal.
